(** * word-journey: the daily-definition script

    A shallow embedding of [scripts/fetch_daily_definitions.py]: the daily
    word pool ([build_daily_pool]), the definition resolver
    ([best_definition]) and the batch driver ([main]), with the properties
    the specification states about them.  The messages the script prints
    are left out. *)

From Stdlib Require Import NArith Ascii String List Lia.
From Stdlib.Strings Require Import Byte.
From stdpp Require Import gmap list sorting.

(** ** Python strings

    A Python [str] is a sequence of Unicode code points.  Literals of the
    script are ASCII and are written [py "..."]. *)

Abbreviation pystr := (list N).

Definition py (s : string) : pystr :=
  List.map N_of_ascii (list_ascii_of_string s).

Definition is_ascii (s : pystr) : bool := forallb (fun c => c <? 128)%N s.

Definition ascii_upper (c : N) : N :=
  if ((97 <=? c) && (c <=? 122))%N then (c - 32)%N else c.

Definition ascii_lower (c : N) : N :=
  if ((65 <=? c) && (c <=? 90))%N then (c + 32)%N else c.

(** [s.startswith(p)] *)
Fixpoint startswith (s p : pystr) {struct p} : bool :=
  match p, s with
  | [], _ => true
  | _ :: _, [] => false
  | c :: p', d :: s' => (d =? c)%N && startswith s' p'
  end.

(** [s < t] and [s <= t] on strings: code point by code point, a proper
    prefix first. *)
Fixpoint str_ltb (s t : pystr) : bool :=
  match s, t with
  | _, [] => false
  | [], _ :: _ => true
  | c :: s', d :: t' => (c <? d)%N || ((c =? d)%N && str_ltb s' t')
  end.

Definition str_leb (s t : pystr) : bool := negb (str_ltb t s).

Definition str_lt (s t : pystr) : Prop := str_ltb s t = true.
Definition str_le (s t : pystr) : Prop := str_leb s t = true.

#[global] Instance str_lt_dec s t : Decision (str_lt s t).
Proof. unfold str_lt. apply _. Defined.
#[global] Instance str_le_dec s t : Decision (str_le s t).
Proof. unfold str_le. apply _. Defined.

(** ** Faults and files

    The script handles no exception: the first one raised ends the run. *)

Inductive PyError :=
| FileNotFoundError
| UnicodeDecodeError
| JSONDecodeError
| ZeroDivisionError
| KeyError
| AttributeError
| TypeError.

Inductive result (A : Type) :=
| Ok (a : A)
| Raise (e : PyError).
Arguments Ok {A} a.
Arguments Raise {A} e.

Definition bind {A B} (r : result A) (k : A -> result B) : result B :=
  match r with
  | Ok a => k a
  | Raise e => Raise e
  end.

Notation "x <- r ;; k" := (bind r (fun x => k))
  (at level 100, r at next level, right associativity).

(** The two encodings the script opens its inputs with. *)
Inductive Encoding := Utf8 | Utf8Sig.

Definition is_cont (b : N) : bool := ((128 <=? b) && (b <=? 191))%N.

(** The strict UTF-8 decoder: no overlong form, no surrogate, nothing
    beyond U+10FFFF. *)
Fixpoint utf8_decode (bs : list N) : option pystr :=
  match bs with
  | [] => Some []
  | b0 :: r0 =>
    if (b0 <? 128)%N then cons b0 <$> utf8_decode r0
    else if (b0 <? 194)%N then None
    else if (b0 <? 224)%N then
      match r0 with
      | b1 :: r1 =>
        if is_cont b1
        then cons ((b0 - 192) * 64 + (b1 - 128))%N <$> utf8_decode r1
        else None
      | _ => None
      end
    else if (b0 <? 240)%N then
      match r0 with
      | b1 :: b2 :: r2 =>
        let c := ((b0 - 224) * 4096 + (b1 - 128) * 64 + (b2 - 128))%N in
        if is_cont b1 && is_cont b2 && (2048 <=? c)%N
           && negb ((55296 <=? c) && (c <=? 57343))%N
        then cons c <$> utf8_decode r2
        else None
      | _ => None
      end
    else if (b0 <? 245)%N then
      match r0 with
      | b1 :: b2 :: b3 :: r3 =>
        let c := ((b0 - 240) * 262144 + (b1 - 128) * 4096
                  + (b2 - 128) * 64 + (b3 - 128))%N in
        if is_cont b1 && is_cont b2 && is_cont b3
           && (65536 <=? c)%N && (c <=? 1114111)%N
        then cons c <$> utf8_decode r3
        else None
      | _ => None
      end
    else None
  end.

(** U+FEFF, the code point the three bytes EF BB BF decode to. *)
Definition BOM : N := 65279%N.

(** ["utf-8-sig"] drops one leading byte-order mark (the bytes EF BB BF),
    ["utf-8"] keeps it. *)
Definition strip_sig (bs : list N) : list N :=
  match bs with
  | 239%N :: 187%N :: 191%N :: rest => rest
  | _ => bs
  end.

Definition decode_bytes (enc : Encoding) (bs : list Byte.byte) : result pystr :=
  let raw := List.map Byte.to_N bs in
  match utf8_decode (match enc with Utf8 => raw | Utf8Sig => strip_sig raw end) with
  | Some s => Ok s
  | None => Raise UnicodeDecodeError
  end.

(** A file opened for reading as text hands every line end over as a line
    feed: a carriage return, with the line feed after it if there is one,
    becomes a line feed. *)
Fixpoint universal_newlines (s : pystr) : pystr :=
  match s with
  | [] => []
  | c :: r =>
    if (c =? 13)%N then
      match r with
      | d :: r' =>
        if (d =? 10)%N then 10%N :: universal_newlines r'
        else 10%N :: universal_newlines r
      | [] => [10%N]
      end
    else c :: universal_newlines r
  end.

(** [open(path, encoding=enc)] followed by reading the whole file; a file
    that is not there is [None]. *)
Definition read_text (enc : Encoding) (file : option (list Byte.byte)) : result pystr :=
  match file with
  | None => Raise FileNotFoundError
  | Some bs => text <- decode_bytes enc bs ;; Ok (universal_newlines text)
  end.

(** [json.loads] refuses a text that starts with the byte-order mark before
    it looks at the grammar; [parse] stands for the grammar of the [json]
    module, with the value read as the list the script expects. *)
Definition json_loads {A} (parse : pystr -> option A) (s : pystr) : result A :=
  if startswith s [BOM] then Raise JSONDecodeError
  else match parse s with
       | Some v => Ok v
       | None => Raise JSONDecodeError
       end.

(** ** Input data

    [valid_words.json] maps a length key to an array of words;
    [words.json] maps a length key to an array of objects with a ["word"]
    and a ["definition"] member. *)

Record LevelEntry := { entry_word : pystr; entry_definition : pystr }.

Abbreviation ValidWords := (gmap pystr (list pystr)).
Abbreviation LevelWords := (gmap pystr (list LevelEntry)).

(** [d.values()] *)
Definition dict_values {A} (d : gmap pystr A) : list A := (map_to_list d).*2.

(** [d.get(k, [])] *)
Definition dict_get_list {A} (d : gmap pystr (list A)) (k : pystr) : list A :=
  default [] (d !! k).

(** ** The lexical database

    A sense ([Synset]) with the names of its lemmas ([l.name()] for [l] in
    [s.lemmas()]) and its gloss ([s.definition()]). *)

Record Synset := { lemma_names : list pystr; definition : pystr }.

Definition PROPER_NOUN_PREFIXES : list pystr :=
  [ py "united states";
    py "english ";
    py "british ";
    py "us ";
    py "an american";
    py "american ";
    py "scottish ";
    py "french ";
    py "german ";
    py "swiss ";
    py "italian ";
    py "dutch ";
    py "spanish ";
    py "greek ";
    py "roman ";
    py "latin ";
    py "danish ";
    py "irish ";
    py "jewish ";
    py "a member of ";
    py "a native of ";
    py "a follower of ";
    py "a person who ";
    py "a person born" ].

(** ** The definition map

    A Python [dict] keeps its keys in insertion order: an association list
    in which an assignment to a key already there replaces the value in
    place and an assignment to a new key goes to the end. *)

Abbreviation pydict := (list (pystr * pystr)).

Fixpoint dict_setitem (d : pydict) (k v : pystr) : pydict :=
  match d with
  | [] => [(k, v)]
  | (k', v') :: d' =>
    if decide (k' = k) then (k', v) :: d' else (k', v') :: dict_setitem d' k v
  end.

(** [dict(items)] *)
Definition dict_of_items (items : list (pystr * pystr)) : pydict :=
  foldl (fun d kv => dict_setitem d kv.1 kv.2) [] items.

Definition dict_keys (d : pydict) : list pystr := d.*1.

(** Tuples compare by their first component, then by the second. *)
Definition item_leb (a b : pystr * pystr) : bool :=
  str_ltb a.1 b.1 || (bool_decide (a.1 = b.1) && str_leb a.2 b.2).

Definition item_le (a b : pystr * pystr) : Prop := item_leb a b = true.

#[global] Instance item_le_dec a b : Decision (item_le a b).
Proof. unfold item_le. apply _. Defined.

(** [sorted] on words and on items. *)
Definition sorted_words (pool : gset pystr) : list pystr :=
  merge_sort str_le (elements pool).

Definition sorted_items (d : pydict) : list (pystr * pystr) :=
  merge_sort item_le d.

(** *** [json.dump] with [ensure_ascii=False], [indent=None] and
    [separators=(",", ":")], on a [dict] from [str] to [str] *)

Definition hex_digit (n : N) : N :=
  if (n <? 10)%N then (48 + n)%N else (87 + n)%N.

(** The quote, the backslash and the control characters are escaped. *)
Definition json_escape (c : N) : pystr :=
  if (c =? 34)%N then [92; 34]%N
  else if (c =? 92)%N then [92; 92]%N
  else if (c =? 8)%N then [92; 98]%N
  else if (c =? 12)%N then [92; 102]%N
  else if (c =? 10)%N then [92; 110]%N
  else if (c =? 13)%N then [92; 114]%N
  else if (c =? 9)%N then [92; 116]%N
  else if (c <? 32)%N
       then [92; 117; 48; 48; hex_digit (c / 16); hex_digit (c mod 16)]%N
  else [c].

Definition json_string (s : pystr) : pystr :=
  [34%N] ++ flat_map json_escape s ++ [34%N].

Definition json_member (kv : pystr * pystr) : pystr :=
  json_string kv.1 ++ [58%N] ++ json_string kv.2.

Fixpoint join (sep : pystr) (parts : list pystr) : pystr :=
  match parts with
  | [] => []
  | [p] => p
  | p :: rest => p ++ sep ++ join sep rest
  end.

Definition json_dumps (d : pydict) : pystr :=
  [123%N] ++ join [44%N] (json_member <$> d) ++ [125%N].

(** What a run leaves behind: the loop's final [definitions] and
    [no_def_count], the [ordered] dict, the text written to the output
    file, and the fault of the closing report when there is one. *)
Record Run := {
  run_pool : gset pystr;
  run_definitions : pydict;
  run_no_def_count : nat;
  run_ordered : pydict;
  run_written : pystr;
  run_fault : option PyError
}.

Section Runtime.

(** [str.upper] and [str.lower] on ASCII text are the letter shifts above.
    On text with a code point beyond ASCII they follow the Unicode tables
    of the interpreter, which are taken as parameters. *)
Variable unicode_upper : pystr -> pystr.
Variable unicode_lower : pystr -> pystr.

Definition str_upper (s : pystr) : pystr :=
  if is_ascii s then List.map ascii_upper s else unicode_upper s.

Definition str_lower (s : pystr) : pystr :=
  if is_ascii s then List.map ascii_lower s else unicode_lower s.

(** *** The pool builder (lines 125-138) *)

Definition excluded_of (level_root : LevelWords) : gset pystr :=
  foldl (fun excluded items =>
           foldl (fun excluded obj => excluded ∪ {[ str_upper (entry_word obj) ]})
                 excluded items)
        ∅ (dict_values level_root).

Definition target_lengths : list pystr := [py "4"; py "5"; py "6"].

Definition pool_of (valid_root : ValidWords) (level_root : LevelWords) : gset pystr :=
  let excluded := excluded_of level_root in
  foldl (fun pool length =>
           foldl (fun pool w =>
                    let uw := str_upper w in
                    if decide (uw ∉ excluded) then pool ∪ {[ uw ]} else pool)
                 pool (dict_get_list valid_root length))
        ∅ target_lengths.

(** *** [build_daily_pool] (lines 116-141)

    The two readers stand for [json.load] on a text that holds a list of the
    documented shape; [build_daily_pool_json] below takes the values as they
    come. *)

Variable parse_valid_words : pystr -> option ValidWords.
Variable parse_level_words : pystr -> option LevelWords.

Definition build_daily_pool (valid_file level_file : option (list Byte.byte))
  : result (gset pystr) :=
  valid_text <- read_text Utf8 valid_file ;;
  valid_root <- json_loads parse_valid_words valid_text ;;
  level_text <- read_text Utf8Sig level_file ;;
  level_root <- json_loads parse_level_words level_text ;;
  Ok (pool_of valid_root level_root).

(** *** [best_definition] (lines 85-110) *)

(** [wordnet.synsets] *)
Variable synsets : pystr -> list Synset.

Definition is_direct (word : pystr) (s : Synset) : bool :=
  bool_decide (word ∈ str_lower <$> lemma_names s).

Definition looks_proper (defn : pystr) : bool :=
  existsb (fun p => startswith (str_lower defn) p) PROPER_NOUN_PREFIXES.

Definition candidates_of (word : pystr) : list Synset :=
  let syns := synsets word in
  let direct := List.filter (is_direct word) syns in
  match direct with
  | [] => syns
  | _ :: _ => direct
  end.

Definition best_definition (word : pystr) : option pystr :=
  match synsets word with
  | [] => None
  | _ :: _ =>
    let candidates := candidates_of word in
    match List.find (fun s => negb (looks_proper (definition s))) candidates with
    | Some s => Some (definition s)
    | None => definition <$> head candidates
    end
  end.

(** *** [main] (lines 147-175) *)

(** One turn of the loop over [words_sorted]: [if defn:] holds for a
    definition that is neither [None] nor the empty string. *)
Definition loop_body (st : pydict * nat) (word : pystr) : pydict * nat :=
  match best_definition (str_lower word) with
  | Some (c :: defn) => (dict_setitem st.1 word (c :: defn), st.2)
  | Some [] | None => (st.1, S st.2)
  end.

Definition main_loop (words : list pystr) : pydict * nat :=
  foldl loop_body ([], 0%nat) words.

(** Lines 149-175, from the pool on. *)
Definition run_main (pool : gset pystr) : Run :=
  let words_sorted := sorted_words pool in
  let total := length words_sorted in
  let st := main_loop words_sorted in
  let ordered := dict_of_items (sorted_items st.1) in
  {| run_pool := pool;
     run_definitions := st.1;
     run_no_def_count := st.2;
     run_ordered := ordered;
     run_written := json_dumps ordered ++ [10%N];
     run_fault := if decide (total = 0%nat) then Some ZeroDivisionError else None |}.

Definition main (valid_file level_file : option (list Byte.byte)) : result Run :=
  pool <- build_daily_pool valid_file level_file ;;
  Ok (run_main pool).

End Runtime.

(** ** The vocabulary of the specification *)

Section Vocabulary.

Variable unicode_upper : pystr -> pystr.
Variable unicode_lower : pystr -> pystr.
Variable synsets : pystr -> list Synset.

(** A word of one of the three target buckets of the valid list, in upper
    case. *)
Definition from_valid (valid_root : ValidWords) (u : pystr) : Prop :=
  ∃ k ws w, k ∈ target_lengths ∧ valid_root !! k = Some ws ∧ w ∈ ws
            ∧ u = str_upper unicode_upper w.

(** The word of an entry of the level list, whatever its bucket, in upper
    case. *)
Definition from_level (level_root : LevelWords) (u : pystr) : Prop :=
  ∃ k items e, level_root !! k = Some items ∧ e ∈ items
               ∧ u = str_upper unicode_upper (entry_word e).

(** The pool as the specification words it: a difference of two sets. *)
Definition valid_side (valid_root : ValidWords) : gset pystr :=
  list_to_set (str_upper unicode_upper
                 <$> mjoin ((fun k => default [] (valid_root !! k)) <$> target_lengths)).

Definition level_side (level_root : LevelWords) : gset pystr :=
  list_to_set ((fun e => str_upper unicode_upper (entry_word e))
                 <$> mjoin (map_to_list level_root).*2).

Definition spec_pool (valid_root : ValidWords) (level_root : LevelWords) : gset pystr :=
  valid_side valid_root ∖ level_side level_root.

(** An upper-case ASCII string: no code point beyond ASCII and no letter
    [a]-[z]. *)
Definition upper_ascii (u : pystr) : Prop :=
  Forall (fun c => (c < 128)%N ∧ ¬ (97 ≤ c ≤ 122)%N) u.

Definition target_length (u : pystr) : Prop :=
  length u = 4%nat ∨ length u = 5%nat ∨ length u = 6%nat.

(** The text begins with the prefix, letter case apart. *)
Definition begins_with (text p : pystr) : Prop :=
  ∃ rest, str_lower unicode_lower text = p ++ rest.

(** A sense the proper-noun filter sets aside. *)
Definition filtered_out (s : Synset) : Prop :=
  ∃ p, p ∈ PROPER_NOUN_PREFIXES ∧ begins_with (definition s) p.


(** The resolver finds a definition for the pool word, and it is not the
    empty string. *)
Definition resolved (w : pystr) : option pystr :=
  match best_definition unicode_lower synsets (str_lower unicode_lower w) with
  | Some (c :: defn) => Some (c :: defn)
  | _ => None
  end.

(** The pool words the driver finds a definition for, each with its
    definition, and the pool words it counts as missing, in the order of
    the loop. *)
Definition hits (words : list pystr) : list (pystr * pystr) :=
  omap (fun w => pair w <$> resolved w) words.

Definition misses (words : list pystr) : list pystr :=
  List.filter (fun w => match resolved w with None => true | Some _ => false end) words.

End Vocabulary.

(** ** Sample data

    The sample inputs consist of ASCII text, on which [str.upper] and
    [str.lower] never consult the Unicode tables. *)

Definition no_table : pystr -> pystr := fun s => s.

(** The example of the specification. *)
Definition sample_valid : ValidWords := {[ py "4" := [py "CARE"; py "GLOW"] ]}.

Definition sample_level : LevelWords :=
  {[ py "4" := [ {| entry_word := py "glow";
                    entry_definition := py "to shine with a steady light" |} ] ]}.

(** A valid list whose bucket ["4"] holds a word of two letters. *)
Definition short_valid : ValidWords := {[ py "4" := [py "at"] ]}.

(** The part of the upper-case table that the word [straße] needs: U+00DF
    becomes [SS]. *)
Definition sharp_s_upper (s : pystr) : pystr :=
  flat_map (fun c => if (c =? 223)%N then [83; 83]%N else [ascii_upper c]) s.

(** A valid list whose bucket ["6"] holds [straße], of six code points. *)
Definition strasse_valid : ValidWords :=
  {[ py "6" := [[115; 116; 114; 97; 223; 101]%N] ]}.

Definition twain_author : Synset :=
  {| lemma_names := [py "Twain"; py "Mark_Twain"];
     definition := py "United States writer and humorist" |}.

Definition twain_pair : Synset :=
  {| lemma_names := [py "couple"; py "pair"; py "twain"];
     definition := py "two items of the same kind" |}.

Definition wind_verb : Synset :=
  {| lemma_names := [py "wind"; py "twist"; py "curve"];
     definition := py "to move in a sinuous or circular course" |}.

Definition wound_noun : Synset :=
  {| lemma_names := [py "wound"; py "lesion"];
     definition := py "an injury to living tissue" |}.

Definition celt_noun : Synset :=
  {| lemma_names := [py "Celt"; py "Kelt"];
     definition := py "a member of a European people who once occupied Britain" |}.

Definition sample_synsets (word : pystr) : list Synset :=
  if decide (word = py "twain") then [twain_author; twain_pair]
  else if decide (word = py "celt") then [celt_noun]
  else if decide (word = py "wound") then [wind_verb; wound_noun]
  else if decide (word = py "care") then
    [ {| lemma_names := [py "care"; py "attention"];
         definition := py "feel concern or interest" |} ]
  else [].

(** [valid_words.json] holding [{}] behind a byte-order mark, and
    [words.json] holding [{}], with and without the mark. *)
Definition bom_braces : list Byte.byte := [xef; xbb; xbf; x7b; x7d]%byte.
Definition plain_braces : list Byte.byte := [x7b; x7d]%byte.


(** ** The progress messages of the driver

    The [print] of line 158, recorded with its operands: the position [i] of
    the word about to be handled, the number of words and
    [len(definitions)] at that moment. *)

Record Progress := {
  progress_i : nat;
  progress_total : nat;
  progress_coverage : nat
}.

(** [i % 1000 == 0 or i == total] *)
Definition progress_due (i total : nat) : bool :=
  (i mod 1000 =? 0)%nat || (i =? total)%nat.

(** [enumerate(words_sorted, 1)] *)
Definition enumerate1 {A} (l : list A) : list (nat * A) :=
  zip (seq 1 (length l)) l.

Section Progress.

Variable unicode_lower : pystr -> pystr.
Variable synsets : pystr -> list Synset.

(** One turn of the loop of lines 156-164, with the message it may print
    before it handles the word. *)
Definition logged_body (total : nat) (acc : (pydict * nat) * list Progress)
    (iw : nat * pystr) : (pydict * nat) * list Progress :=
  let st := acc.1 in
  let log :=
    if progress_due iw.1 total
    then acc.2 ++ [ {| progress_i := iw.1;
                       progress_total := total;
                       progress_coverage := length st.1 |} ]
    else acc.2 in
  (loop_body unicode_lower synsets st iw.2, log).

Definition main_loop_logged (words : list pystr) : (pydict * nat) * list Progress :=
  foldl (logged_body (length words)) (([], 0%nat), []) (enumerate1 words).

End Progress.

(** ** Reading back what [json.dump] writes

    A reader for the texts of [json_dumps]: a string literal after its
    opening quote, a member, and an object whose members are strings. *)

Definition unhex (c : N) : option N :=
  if ((48 <=? c) && (c <=? 57))%N then Some (c - 48)%N
  else if ((97 <=? c) && (c <=? 102))%N then Some (c - 87)%N
  else None.

Definition unescape (e : N) : option N :=
  if (e =? 34)%N then Some 34%N
  else if (e =? 92)%N then Some 92%N
  else if (e =? 98)%N then Some 8%N
  else if (e =? 102)%N then Some 12%N
  else if (e =? 110)%N then Some 10%N
  else if (e =? 114)%N then Some 13%N
  else if (e =? 116)%N then Some 9%N
  else None.

Definition scanned (c : N) (r : option (pystr * pystr)) : option (pystr * pystr) :=
  match r with
  | Some (s, rest) => Some (c :: s, rest)
  | None => None
  end.

Fixpoint scan_string (t : pystr) : option (pystr * pystr) :=
  match t with
  | [] => None
  | c :: r =>
    if (c =? 34)%N then Some ([], r)
    else if (c =? 92)%N then
      match r with
      | [] => None
      | e :: r' =>
        if (e =? 117)%N then
          match r' with
          | h1 :: h2 :: h3 :: h4 :: r'' =>
            match unhex h1, unhex h2, unhex h3, unhex h4 with
            | Some a, Some b, Some c', Some d =>
              scanned (a * 4096 + b * 256 + c' * 16 + d)%N (scan_string r'')
            | _, _, _, _ => None
            end
          | _ => None
          end
        else
          match unescape e with
          | Some x => scanned x (scan_string r')
          | None => None
          end
      end
    else if (c <? 32)%N then None
    else scanned c (scan_string r)
  end.

Definition scan_member (t : pystr) : option ((pystr * pystr) * pystr) :=
  match t with
  | q :: t1 =>
    if (q =? 34)%N then
      match scan_string t1 with
      | Some (k, c :: q' :: t2) =>
        if ((c =? 58) && (q' =? 34))%N then
          match scan_string t2 with
          | Some (v, rest) => Some ((k, v), rest)
          | None => None
          end
        else None
      | _ => None
      end
    else None
  | [] => None
  end.

Fixpoint read_members (fuel : nat) (t : pystr) : option pydict :=
  match fuel with
  | O => None
  | S fuel' =>
    match scan_member t with
    | Some (kv, c :: rest) =>
      if (c =? 125)%N then
        match rest with
        | [] => Some [kv]
        | _ :: _ => None
        end
      else if (c =? 44)%N then cons kv <$> read_members fuel' rest
      else None
    | _ => None
    end
  end.

Definition read_object (t : pystr) : option pydict :=
  match t with
  | o :: t' =>
    if (o =? 123)%N then
      match t' with
      | [c] => if (c =? 125)%N then Some [] else None
      | _ => read_members (length t') t'
      end
    else None
  | [] => None
  end.

(** ** [check_defs.py]

    The script prints a preview of [words.json]: for each of five buckets a
    header with the number of entries, the first five entries with their
    definitions cut to sixty code points, and the number of entries left.
    The report has one element for each call of [print], with the operands
    of the call: the text of a header begins with a line feed, and a word
    is printed as it is, so a call may write more than one line.  The list
    is of the documented shape, each entry with its word and its
    definition; without one of them line 7 raises [KeyError]. *)

Inductive PrintCall :=
| Header (l : pystr) (total : nat)
| Item (word defn : pystr)
| More (n : nat).

Definition CHECK_LENGTHS : list pystr := [py "3"; py "4"; py "5"; py "6"; py "7"].

Definition report_bucket (d : LevelWords) (l : pystr) : list PrintCall :=
  let words := dict_get_list d l in
  [Header l (length words)]
  ++ ((fun w => Item (entry_word w) (take 60 (entry_definition w))) <$> take 5 words)
  ++ (if decide (5 < length words)%nat then [More (length words - 5)] else []).

Definition check_report (d : LevelWords) : list PrintCall :=
  mjoin (report_bucket d <$> CHECK_LENGTHS).

(** [words.json] is opened as ["utf-8"] here. *)
Definition check_defs (parse_level_words : pystr -> option LevelWords)
    (file : option (list Byte.byte)) : result (list PrintCall) :=
  text <- read_text Utf8 file ;;
  d <- json_loads parse_level_words text ;;
  Ok (check_report d).

(** ** Sample files

    The texts of the two sample lists, readers that know these two texts
    only, and the files that hold them, [words.json] behind a byte-order
    mark. *)

Definition quoted (s : string) : pystr := [34%N] ++ py s ++ [34%N].

Definition sample_valid_text : pystr :=
  py "{" ++ quoted "4" ++ py ":[" ++ quoted "CARE" ++ py "," ++ quoted "GLOW" ++ py "]}".

Definition sample_level_text : pystr :=
  py "{" ++ quoted "4" ++ py ":[{" ++ quoted "word" ++ py ":" ++ quoted "glow"
  ++ py "," ++ quoted "definition" ++ py ":" ++ quoted "to shine with a steady light"
  ++ py "}]}".

Definition sample_parse_valid (s : pystr) : option ValidWords :=
  if decide (s = sample_valid_text) then Some sample_valid else None.

Definition sample_parse_level (s : pystr) : option LevelWords :=
  if decide (s = sample_level_text) then Some sample_level else None.

Definition file_of (text : pystr) : list Byte.byte := omap Byte.of_N text.

Definition sample_valid_file : list Byte.byte := file_of sample_valid_text.
Definition sample_level_file : list Byte.byte :=
  [xef; xbb; xbf]%byte ++ file_of sample_level_text.

(** ** The pool builder on values of any shape

    [json.load] returns an object, an array, a string, a number, a truth
    value or [None], and the loops of [build_daily_pool] fault on a value
    they cannot use.  [build_daily_pool] above reads the two files as lists
    of the documented shape; [build_daily_pool_json] is the same function on
    whatever the files hold.  An object keeps its members in the order of
    the file, each key once. *)

#[warnings="-register-all"] Inductive json :=
| JNull
| JBool (b : bool)
| JNumber (literal : pystr)
| JString (s : pystr)
| JArray (items : list json)
| JObject (members : list (pystr * json)).

Definition dict_find (k : pystr) (members : list (pystr * json)) : option json :=
  snd <$> List.find (fun kv => bool_decide (kv.1 = k)) members.

(** [d.values()]: only an object has the method. *)
Definition py_values (j : json) : result (list json) :=
  match j with
  | JObject members => Ok members.*2
  | _ => Raise AttributeError
  end.

(** [d.get(k, dflt)]: only an object has the method. *)
Definition py_get (j : json) (k : pystr) (dflt : json) : result json :=
  match j with
  | JObject members => Ok (default dflt (dict_find k members))
  | _ => Raise AttributeError
  end.

(** [for x in j]: an array yields its items, an object its keys, a string
    its code points, each as a string; nothing else can be run over. *)
Definition py_iter (j : json) : result (list json) :=
  match j with
  | JArray items => Ok items
  | JObject members => Ok (JString <$> members.*1)
  | JString s => Ok ((fun c => JString [c]) <$> s)
  | _ => Raise TypeError
  end.

(** [j[k]] for a string [k]: an object without the key raises [KeyError],
    any other value [TypeError]. *)
Definition py_getitem (j : json) (k : pystr) : result json :=
  match j with
  | JObject members =>
    match dict_find k members with
    | Some v => Ok v
    | None => Raise KeyError
    end
  | _ => Raise TypeError
  end.

(** A [for] loop that updates a state and stops at the first fault. *)
Fixpoint for_each {A S} (body : S -> A -> result S) (s : S) (l : list A) : result S :=
  match l with
  | [] => Ok s
  | x :: l' => s' <- body s x ;; for_each body s' l'
  end.

Section RuntimeJson.

Variable unicode_upper : pystr -> pystr.

(** [j.upper()]: only a string has the method. *)
Definition py_upper (j : json) : result pystr :=
  match j with
  | JString s => Ok (str_upper unicode_upper s)
  | _ => Raise AttributeError
  end.

(** Lines 126-129. *)
Definition excluded_json (level_root : json) : result (gset pystr) :=
  buckets <- py_values level_root ;;
  for_each (fun excluded items =>
              objs <- py_iter items ;;
              for_each (fun excluded obj =>
                          w <- py_getitem obj (py "word") ;;
                          u <- py_upper w ;;
                          Ok (excluded ∪ {[ u ]}))
                       excluded objs)
           ∅ buckets.

(** Lines 126-138. *)
Definition pool_json (valid_root level_root : json) : result (gset pystr) :=
  excluded <- excluded_json level_root ;;
  for_each (fun pool length =>
              arr <- py_get valid_root length (JArray []) ;;
              ws <- py_iter arr ;;
              for_each (fun pool w =>
                          uw <- py_upper w ;;
                          Ok (if decide (uw ∉ excluded) then pool ∪ {[ uw ]} else pool))
                       pool ws)
           ∅ target_lengths.

(** The grammar of the [json] module. *)
Variable parse_json : pystr -> option json.

(** Lines 116-141. *)
Definition build_daily_pool_json (valid_file level_file : option (list Byte.byte))
  : result (gset pystr) :=
  valid_text <- read_text Utf8 valid_file ;;
  valid_root <- json_loads parse_json valid_text ;;
  level_text <- read_text Utf8Sig level_file ;;
  level_root <- json_loads parse_json level_text ;;
  pool_json valid_root level_root.

(** *** The shapes the loops accept *)

(** An entry of the level list the loop accepts: an object with a string
    under ["word"]. *)
Definition has_word (obj : json) : bool :=
  match obj with
  | JObject members =>
    match dict_find (py "word") members with
    | Some (JString _) => true
    | _ => false
    end
  | _ => false
  end.

Definition is_string (j : json) : bool :=
  match j with
  | JString _ => true
  | _ => false
  end.

(** The level list: an object, every value of which can be run over and
    yields entries with a word. *)
Definition level_ok (level_root : json) : bool :=
  match level_root with
  | JObject members =>
    forallb (fun items =>
               match py_iter items with
               | Ok objs => forallb has_word objs
               | Raise _ => false
               end) members.*2
  | _ => false
  end.

(** The valid list: an object whose buckets "4", "5" and "6", where they are
    there, can be run over and yield strings. *)
Definition valid_ok (valid_root : json) : bool :=
  match valid_root with
  | JObject members =>
    forallb (fun length =>
               match py_iter (default (JArray []) (dict_find length members)) with
               | Ok ws => forallb is_string ws
               | Raise _ => false
               end) target_lengths
  | _ => false
  end.

(** A string that one of the three buckets yields, in upper case. *)
Definition from_valid_json (valid_root : json) (u : pystr) : Prop :=
  ∃ members k ws s,
    valid_root = JObject members ∧ k ∈ target_lengths
    ∧ py_iter (default (JArray []) (dict_find k members)) = Ok ws
    ∧ JString s ∈ ws ∧ u = str_upper unicode_upper s.

(** The word of an entry that a value of the level list yields, in upper
    case. *)
Definition from_level_json (level_root : json) (u : pystr) : Prop :=
  ∃ members items objs entry w,
    level_root = JObject members ∧ items ∈ members.*2
    ∧ py_iter items = Ok objs ∧ JObject entry ∈ objs
    ∧ dict_find (py "word") entry = Some (JString w)
    ∧ u = str_upper unicode_upper w.

End RuntimeJson.

(** The faults the loops raise on a value they cannot use. *)
Definition shape_fault (e : PyError) : Prop :=
  e = KeyError ∨ e = AttributeError ∨ e = TypeError.

(** The two lists of the documented shape, as [json.load] returns them. *)
Definition valid_json (valid_root : ValidWords) : json :=
  JObject ((fun kv => (kv.1, JArray (JString <$> kv.2))) <$> map_to_list valid_root).

Definition entry_json (e : LevelEntry) : json :=
  JObject [ (py "word", JString (entry_word e));
            (py "definition", JString (entry_definition e)) ].

Definition level_json (level_root : LevelWords) : json :=
  JObject ((fun kv => (kv.1, JArray (entry_json <$> kv.2))) <$> map_to_list level_root).

(** Values of other shapes: a level entry without a word, a number where a
    word is due, and a string where a bucket is due. *)
Definition level_without_word : json :=
  JObject [ (py "4", JArray [ JObject [ (py "definition", JString (py "to shine")) ] ]) ].

Definition valid_with_number : json :=
  JObject [ (py "4", JArray [ JNumber (py "1") ]) ].

Definition valid_with_string : json :=
  JObject [ (py "4", JString (py "care")) ].

(** ** The order on strings *)

Section StringOrder.

Lemma str_ltb_irrefl s : str_ltb s s = false.
Proof.
  induction s as [|c s IH]; simpl; [done|].
  rewrite N.ltb_irrefl, N.eqb_refl, IH. done.
Qed.

Lemma str_ltb_trichotomy s t :
  str_ltb s t = true ∨ s = t ∨ str_ltb t s = true.
Proof.
  revert t. induction s as [|c s IH]; intros [|d t]; simpl; auto.
  destruct (N.ltb_spec c d); [auto|].
  destruct (N.ltb_spec d c); [auto|].
  assert (c = d) as -> by lia.
  rewrite N.eqb_refl. simpl.
  destruct (IH t) as [?|[->|?]]; auto.
Qed.

Lemma str_ltb_trans s t u :
  str_ltb s t = true → str_ltb t u = true → str_ltb s u = true.
Proof.
  revert t u. induction s as [|c s IH]; intros [|d t] [|e u]; simpl; try done.
  rewrite !orb_true_iff, !andb_true_iff, !N.ltb_lt, !N.eqb_eq.
  intros [?|[-> Hst]] [?|[-> Htu]]; [left; lia|left; lia|left; lia|].
  right. split; [done|]. by apply (IH t).
Qed.

Lemma str_ltb_asym s t : str_ltb s t = true → str_ltb t s = false.
Proof.
  intros Hst. destruct (str_ltb t s) eqn:Hts; [|done].
  pose proof (str_ltb_trans _ _ _ Hst Hts) as Hss.
  by rewrite str_ltb_irrefl in Hss.
Qed.

Lemma str_le_lt_eq s t : str_le s t ↔ str_lt s t ∨ s = t.
Proof.
  unfold str_le, str_lt, str_leb. rewrite negb_true_iff. split.
  - intros Hts. destruct (str_ltb_trichotomy s t) as [?|[?|?]]; auto. congruence.
  - intros [?| ->]; [by apply str_ltb_asym | apply str_ltb_irrefl].
Qed.

#[global] Instance str_le_total : Total str_le.
Proof.
  intros s t. rewrite !str_le_lt_eq. unfold str_lt.
  destruct (str_ltb_trichotomy s t) as [?|[?|?]]; auto.
Qed.

#[global] Instance str_le_trans : Transitive str_le.
Proof.
  intros s t u. rewrite !str_le_lt_eq. unfold str_lt.
  intros [?| ->] [?| ->]; eauto using str_ltb_trans.
Qed.

#[global] Instance item_le_total : Total item_le.
Proof.
  intros [k1 v1] [k2 v2]. unfold item_le, item_leb. simpl.
  rewrite !orb_true_iff, !andb_true_iff, !bool_decide_eq_true.
  destruct (str_ltb_trichotomy k1 k2) as [?|[->|?]]; auto.
  destruct (str_le_total v1 v2); auto.
Qed.

#[global] Instance item_le_trans : Transitive item_le.
Proof.
  intros [k1 v1] [k2 v2] [k3 v3]. unfold item_le, item_leb. simpl.
  rewrite !orb_true_iff, !andb_true_iff, !bool_decide_eq_true.
  intros [?|[-> ?]] [?|[-> ?]]; eauto using str_ltb_trans.
  right. split; [done|]. by apply (str_le_trans v1 v2 v3).
Qed.

Lemma item_le_key a b : item_le a b → str_le a.1 b.1.
Proof.
  unfold item_le, item_leb.
  rewrite orb_true_iff, andb_true_iff, bool_decide_eq_true, str_le_lt_eq.
  unfold str_lt. intros [?|[? _]]; auto.
Qed.

End StringOrder.

(** ** The pool builder *)

Section PoolProperties.

Variable unicode_upper : pystr -> pystr.
Variable parse_valid_words : pystr -> option ValidWords.
Variable parse_level_words : pystr -> option LevelWords.

#[local] Abbreviation upper := (str_upper unicode_upper).

Lemma elem_of_dict_values {A} (d : gmap pystr A) (x : A) :
  x ∈ dict_values d ↔ ∃ k, d !! k = Some x.
Proof.
  unfold dict_values. rewrite list_elem_of_fmap. split.
  - intros [[k y] [-> Hin]]. exists k. by apply elem_of_map_to_list.
  - intros [k Hk]. exists (k, x). split; [done|]. by apply elem_of_map_to_list.
Qed.

Lemma elem_of_add_all {A} (f : A → pystr) (l : list A) (acc : gset pystr) u :
  u ∈ foldl (fun acc x => acc ∪ {[ f x ]}) acc l ↔ u ∈ acc ∨ ∃ x, x ∈ l ∧ u = f x.
Proof.
  revert acc. induction l as [|x l IH]; intros acc; simpl.
  - split; [auto|]. intros [?|(x & Hx & _)]; [done|]. by apply elem_of_nil in Hx.
  - rewrite IH, elem_of_union, elem_of_singleton. split.
    + intros [[?| ->]|(y & Hy & ->)]; [auto|right..].
      * exists x. split; [apply list_elem_of_here|done].
      * exists y. split; [by apply list_elem_of_further|done].
    + intros [?|(y & Hy & ->)]; [auto|].
      apply elem_of_cons in Hy as [->|Hy]; [auto|]. right. eauto.
Qed.

Lemma elem_of_excluded_of level_root u :
  u ∈ excluded_of unicode_upper level_root ↔ from_level unicode_upper level_root u.
Proof.
  unfold excluded_of, from_level.
  assert (∀ (ls : list (list LevelEntry)) (acc : gset pystr),
    u ∈ foldl (fun excluded items =>
                 foldl (fun excluded obj => excluded ∪ {[ upper (entry_word obj) ]})
                       excluded items) acc ls
    ↔ u ∈ acc ∨ ∃ items e, items ∈ ls ∧ e ∈ items ∧ u = upper (entry_word e)) as Hfold.
  { induction ls as [|items ls IH]; intros acc; simpl.
    - split; [auto|]. intros [?|(items & e & Hin & _)]; [done|].
      by apply elem_of_nil in Hin.
    - rewrite IH, (elem_of_add_all (fun obj => upper (entry_word obj))). split.
      + intros [[?|(e & He & ->)]|(its & e & Hits & He & ->)]; [auto|right..].
        * exists items, e. split; [apply list_elem_of_here|done].
        * exists its, e. split; [by apply list_elem_of_further|done].
      + intros [?|(its & e & Hits & He & ->)]; [auto|].
        apply elem_of_cons in Hits as [->|Hits]; [eauto|]. right. eauto 6. }
  rewrite Hfold. split.
  - intros [Hemp|(items & e & Hin & He & ->)]; [by apply not_elem_of_empty in Hemp|].
    apply elem_of_dict_values in Hin as [k Hk]. eauto 6.
  - intros (k & items & e & Hk & He & ->). right. exists items, e.
    split; [|done]. apply elem_of_dict_values. eauto.
Qed.

Lemma elem_of_pool_bucket (excluded : gset pystr) (ws : list pystr) (pool : gset pystr) u :
  u ∈ foldl (fun pool w =>
               let uw := upper w in
               if decide (uw ∉ excluded) then pool ∪ {[ uw ]} else pool) pool ws
  ↔ u ∈ pool ∨ ((u ∉ excluded) ∧ ∃ w, w ∈ ws ∧ u = upper w).
Proof.
  revert pool. induction ws as [|w ws IH]; intros pool; simpl.
  - split; [auto|]. intros [?|(_ & w & Hw & _)]; [done|]. by apply elem_of_nil in Hw.
  - rewrite IH. destruct (decide (upper w ∉ excluded)) as [Hnot|Hin].
    + rewrite elem_of_union, elem_of_singleton. split.
      * intros [[?| ->]|(Hu & y & Hy & ->)]; [auto|right..].
        -- split; [done|]. exists w. split; [apply list_elem_of_here|done].
        -- split; [done|]. exists y. split; [by apply list_elem_of_further|done].
      * intros [?|(Hu & y & Hy & ->)]; [auto|].
        apply elem_of_cons in Hy as [->|Hy]; [auto|]. right. eauto.
    + split.
      * intros [?|(Hu & y & Hy & ->)]; [auto|right].
        split; [done|]. exists y. split; [by apply list_elem_of_further|done].
      * intros [?|(Hu & y & Hy & ->)]; [auto|].
        apply elem_of_cons in Hy as [->|Hy]; [done|]. right. eauto.
Qed.

Lemma elem_of_pool_of valid_root level_root u :
  u ∈ pool_of unicode_upper valid_root level_root
  ↔ from_valid unicode_upper valid_root u ∧ ¬ from_level unicode_upper level_root u.
Proof.
  unfold pool_of, from_valid. rewrite <- elem_of_excluded_of.
  set (excluded := excluded_of unicode_upper level_root).
  assert (∀ (ks : list pystr) (acc : gset pystr),
    u ∈ foldl (fun pool length =>
                 foldl (fun pool w =>
                          let uw := upper w in
                          if decide (uw ∉ excluded) then pool ∪ {[ uw ]} else pool)
                       pool (dict_get_list valid_root length)) acc ks
    ↔ u ∈ acc ∨ ((u ∉ excluded) ∧
                 ∃ k ws w, k ∈ ks ∧ valid_root !! k = Some ws ∧ w ∈ ws ∧ u = upper w))
    as Hfold.
  { induction ks as [|k ks IH]; intros acc; simpl.
    - split; [auto|]. intros [?|(_ & k & ws & w & Hk & _)]; [done|].
      by apply elem_of_nil in Hk.
    - rewrite IH, elem_of_pool_bucket. unfold dict_get_list. split.
      + intros [[?|(Hu & w & Hw & ->)]|(Hu & k' & ws & w & Hk' & Hws & Hw & ->)];
          [auto|right; split; [done|]..].
        * destruct (valid_root !! k) as [ws|] eqn:Hk; simpl in Hw;
            [|by apply elem_of_nil in Hw].
          exists k, ws, w. split; [apply list_elem_of_here|done].
        * exists k', ws, w. split; [by apply list_elem_of_further|done].
      + intros [?|(Hu & k' & ws & w & Hk' & Hws & Hw & ->)]; [auto|].
        apply elem_of_cons in Hk' as [->|Hk'].
        * left. right. split; [done|]. exists w. rewrite Hws. done.
        * right. split; [done|]. eauto 8. }
  rewrite Hfold. split.
  - intros [Hemp|[Hu Hex]]; [by apply not_elem_of_empty in Hemp|done].
  - intros [Hex Hu]. auto.
Qed.

Lemma elem_of_valid_side valid_root u :
  u ∈ valid_side unicode_upper valid_root ↔ from_valid unicode_upper valid_root u.
Proof.
  unfold valid_side, from_valid.
  rewrite elem_of_list_to_set, list_elem_of_fmap. split.
  - intros (w & -> & Hw). apply list_elem_of_join in Hw as (ws & Hw & Hws).
    apply list_elem_of_fmap in Hws as (k & -> & Hk).
    destruct (valid_root !! k) as [ws|] eqn:Hlook; simpl in Hw;
      [|by apply elem_of_nil in Hw].
    exists k, ws, w. done.
  - intros (k & ws & w & Hk & Hlook & Hw & ->). exists w. split; [done|].
    apply list_elem_of_join. exists ws. split; [done|].
    apply list_elem_of_fmap. exists k. by rewrite Hlook.
Qed.

Lemma elem_of_level_side level_root u :
  u ∈ level_side unicode_upper level_root ↔ from_level unicode_upper level_root u.
Proof.
  unfold level_side, from_level.
  rewrite elem_of_list_to_set, list_elem_of_fmap. split.
  - intros (e & -> & He). apply list_elem_of_join in He as (items & He & Hitems).
    apply (elem_of_dict_values level_root) in Hitems as [k Hk]. eauto 6.
  - intros (k & items & e & Hk & He & ->). exists e. split; [done|].
    apply list_elem_of_join. exists items. split; [done|].
    apply (elem_of_dict_values level_root). eauto.
Qed.

(** C1: the pool is the set difference of the specification: the upper-case
    words of the valid list's buckets "4", "5" and "6", minus the upper-case
    words of the level list's entries of every bucket.  So no level word is
    in the pool, and every word of the three buckets that is not a level
    word is.  It is what [build_daily_pool] returns for files that hold the
    two lists. *)
Theorem pool_is_set_difference valid_root level_root :
  pool_of unicode_upper valid_root level_root
    = spec_pool unicode_upper valid_root level_root
  ∧ (∀ k items e, level_root !! k = Some items → e ∈ items →
       upper (entry_word e) ∉ pool_of unicode_upper valid_root level_root)
  ∧ (∀ k ws w, k ∈ target_lengths → valid_root !! k = Some ws → w ∈ ws →
       ¬ from_level unicode_upper level_root (upper w) →
       upper w ∈ pool_of unicode_upper valid_root level_root)
  ∧ (∀ valid_file level_file valid_text level_text,
       read_text Utf8 valid_file = Ok valid_text →
       json_loads parse_valid_words valid_text = Ok valid_root →
       read_text Utf8Sig level_file = Ok level_text →
       json_loads parse_level_words level_text = Ok level_root →
       build_daily_pool unicode_upper parse_valid_words parse_level_words
                        valid_file level_file
       = Ok (spec_pool unicode_upper valid_root level_root)).
Proof.
  assert (pool_of unicode_upper valid_root level_root
          = spec_pool unicode_upper valid_root level_root) as Hpool;
    [|split; [exact Hpool|split; [|split]]].
  - apply set_eq. intros u. unfold spec_pool.
    rewrite elem_of_pool_of, elem_of_difference, elem_of_valid_side, elem_of_level_side.
    done.
  - intros k items e Hk He Hin. apply elem_of_pool_of in Hin as [_ Hnot].
    apply Hnot. exists k, items, e. done.
  - intros k ws w Hk Hlook Hw Hnot. apply elem_of_pool_of. split; [|done].
    exists k, ws, w. done.
  - intros valid_file level_file valid_text level_text Hvt Hvr Hlt Hlr.
    unfold build_daily_pool.
    rewrite Hvt. simpl. rewrite Hvr. simpl. rewrite Hlt. simpl. rewrite Hlr. simpl.
    by rewrite Hpool.
Qed.

Lemma ascii_upper_map_fixed (s : pystr) :
  is_ascii s = true →
  is_ascii (List.map ascii_upper s) = true
  ∧ List.map ascii_upper (List.map ascii_upper s) = List.map ascii_upper s
  ∧ upper_ascii (List.map ascii_upper s).
Proof.
  unfold upper_ascii. induction s as [|c s IH]; simpl.
  - intros _. repeat split. constructor.
  - rewrite andb_true_iff, N.ltb_lt. intros [Hc Hs].
    destruct (IH Hs) as (IH1 & IH2 & IH3).
    assert ((ascii_upper c < 128)%N ∧ ascii_upper (ascii_upper c) = ascii_upper c
            ∧ ¬ (97 ≤ ascii_upper c ≤ 122)%N) as (H1 & H2 & H3).
    { unfold ascii_upper.
      destruct (N.leb_spec 97 c), (N.leb_spec c 122); simpl;
        repeat match goal with
               | |- context [N.leb ?a ?b] => destruct (N.leb_spec a b); simpl
               end; lia. }
    rewrite andb_true_iff, N.ltb_lt, IH2, H2. repeat split; try done.
    constructor; done.
Qed.

(** C5, amended: when every word of the valid list's buckets "4", "5" and
    "6" is an ASCII string of four, five or six characters, every element of
    the pool is an upper-case string of four, five or six characters. *)
Theorem pool_words_upper_of_target_length valid_root level_root :
  (∀ k ws w, k ∈ target_lengths → valid_root !! k = Some ws → w ∈ ws →
     is_ascii w = true ∧ target_length w) →
  ∀ u, u ∈ pool_of unicode_upper valid_root level_root →
       upper_ascii u ∧ upper u = u ∧ target_length u.
Proof.
  intros Hshape u Hu.
  apply elem_of_pool_of in Hu as [(k & ws & w & Hk & Hlook & Hw & ->) _].
  destruct (Hshape k ws w Hk Hlook Hw) as [Hascii Hlen].
  destruct (ascii_upper_map_fixed w Hascii) as (H1 & H2 & H3).
  assert (upper w = List.map ascii_upper w) as ->.
  { unfold str_upper. by rewrite Hascii. }
  split; [done|]. split.
  - unfold str_upper. by rewrite H1.
  - unfold target_length in *. by rewrite length_map.
Qed.

(** C8: a target bucket missing from the valid list is read as the empty
    bucket: the pool is the one of the list with that bucket empty, each of
    its words comes from a bucket that is there, and [build_daily_pool]
    returns it for files that hold the two lists. *)
Theorem missing_bucket_is_empty valid_root level_root k :
  k ∈ target_lengths →
  valid_root !! k = None →
  pool_of unicode_upper valid_root level_root
    = pool_of unicode_upper (<[k := []]> valid_root) level_root
  ∧ (∀ u, u ∈ pool_of unicode_upper valid_root level_root →
          ∃ k' ws w, k' ≠ k ∧ k' ∈ target_lengths ∧ valid_root !! k' = Some ws
                     ∧ w ∈ ws ∧ u = upper w)
  ∧ (∀ valid_file level_file valid_text level_text,
       read_text Utf8 valid_file = Ok valid_text →
       json_loads parse_valid_words valid_text = Ok valid_root →
       read_text Utf8Sig level_file = Ok level_text →
       json_loads parse_level_words level_text = Ok level_root →
       build_daily_pool unicode_upper parse_valid_words parse_level_words
                        valid_file level_file
       = Ok (pool_of unicode_upper (<[k := []]> valid_root) level_root)).
Proof.
  intros Hk Hnone.
  assert (pool_of unicode_upper valid_root level_root
          = pool_of unicode_upper (<[k := []]> valid_root) level_root) as Hpool;
    [|split; [exact Hpool|split]].
  - apply set_eq. intros u. rewrite !elem_of_pool_of.
    assert (from_valid unicode_upper valid_root u
            ↔ from_valid unicode_upper (<[k := []]> valid_root) u) as ->; [|done].
    unfold from_valid. split.
    + intros (k' & ws & w & Hk' & Hlook & Hw & ->). exists k', ws, w.
      rewrite lookup_insert_ne; [done|]. intros ->. congruence.
    + intros (k' & ws & w & Hk' & Hlook & Hw & ->).
      destruct (decide (k = k')) as [->|Hne].
      * rewrite lookup_insert_eq in Hlook. injection Hlook as <-.
        by apply elem_of_nil in Hw.
      * rewrite lookup_insert_ne in Hlook by done. exists k', ws, w. done.
  - intros u Hu. apply elem_of_pool_of in Hu as [(k' & ws & w & Hk' & Hlook & Hw & ->) _].
    exists k', ws, w. repeat split; try done. intros ->. congruence.
  - intros valid_file level_file valid_text level_text Hvt Hvr Hlt Hlr.
    unfold build_daily_pool.
    rewrite Hvt. simpl. rewrite Hvr. simpl. rewrite Hlt. simpl. rewrite Hlr. simpl.
    by rewrite Hpool.
Qed.

End PoolProperties.

(** *** The pool builder on the sample inputs *)

(** Membership in a list that is written out. *)
Ltac in_list :=
  repeat first [apply list_elem_of_here | apply list_elem_of_further].

Lemma sample_valid_shape k ws w :
  k ∈ target_lengths → sample_valid !! k = Some ws → w ∈ ws →
  is_ascii w = true ∧ target_length w.
Proof.
  intros _ Hlook Hw. unfold sample_valid in Hlook.
  apply lookup_singleton_Some in Hlook as [_ <-].
  unfold target_length.
  apply elem_of_cons in Hw as [->|Hw]; [split; [reflexivity|by left]|].
  apply elem_of_cons in Hw as [->|Hw]; [split; [reflexivity|by left]|].
  by apply elem_of_nil in Hw.
Defined.

Lemma care_in_sample_pool : py "CARE" ∈ pool_of no_table sample_valid sample_level.
Proof.
  apply elem_of_pool_of. split.
  - exists (py "4"), [py "CARE"; py "GLOW"], (py "CARE").
    split; [in_list|]. split; [apply lookup_singleton_eq|].
    split; [in_list|reflexivity].
  - intros (k & items & e & Hlook & He & Heq). unfold sample_level in Hlook.
    apply lookup_singleton_Some in Hlook as [_ <-].
    apply elem_of_cons in He as [->|He]; [discriminate Heq|].
    by apply elem_of_nil in He.
Defined.

(** The example of the specification: the pool is [{"CARE"}]. *)
Example sample_pool : pool_of no_table sample_valid sample_level = {[ py "CARE" ]}.
Proof.
  apply set_eq. intros u. rewrite elem_of_singleton. split.
  - intros Hu. apply elem_of_pool_of in Hu as [(k & ws & w & _ & Hlook & Hw & ->) Hnot].
    unfold sample_valid in Hlook. apply lookup_singleton_Some in Hlook as [_ <-].
    apply elem_of_cons in Hw as [->|Hw]; [reflexivity|].
    apply elem_of_cons in Hw as [->|Hw]; [|by apply elem_of_nil in Hw].
    exfalso. apply Hnot. unfold from_level, sample_level. eexists (py "4"), _, _.
    split; [apply lookup_singleton_eq|]. split; [apply list_elem_of_here|reflexivity].
  - intros ->. apply care_in_sample_pool.
Qed.

(** C5, as stated, fails: nothing checks the length of a word against the key
    of its bucket, so the two-letter word of bucket "4" is in the pool. *)
Lemma pool_word_of_two_letters :
  py "AT" ∈ pool_of no_table short_valid ∅ ∧ ¬ target_length (py "AT").
Proof.
  split.
  - apply elem_of_pool_of. split.
    + exists (py "4"), [py "at"], (py "at").
      split; [in_list|]. split; [apply lookup_singleton_eq|].
      split; [in_list|reflexivity].
    + intros (k & items & e & Hlook & _). by rewrite lookup_empty in Hlook.
  - unfold target_length. simpl. lia.
Qed.

(** Beyond ASCII uppercasing may lengthen a word: [straße], in the bucket of
    its length, enters the pool as [STRASSE]. *)
Example pool_word_lengthened :
  py "STRASSE" ∈ pool_of sharp_s_upper strasse_valid ∅
  ∧ length (py "STRASSE") = 7%nat.
Proof.
  split; [|reflexivity]. apply elem_of_pool_of. split.
  - exists (py "6"), [[115; 116; 114; 97; 223; 101]%N], [115; 116; 114; 97; 223; 101]%N.
    split; [in_list|]. split; [apply lookup_singleton_eq|].
    split; [in_list|reflexivity].
  - intros (k & items & e & Hlook & _). by rewrite lookup_empty in Hlook.
Qed.

Lemma pool_words_upper_of_target_length_witness :
  (∀ k ws w, k ∈ target_lengths → sample_valid !! k = Some ws → w ∈ ws →
     is_ascii w = true ∧ target_length w)
  ∧ py "CARE" ∈ pool_of no_table sample_valid sample_level
  ∧ upper_ascii (py "CARE") ∧ str_upper no_table (py "CARE") = py "CARE"
  ∧ target_length (py "CARE").
Proof.
  split; [exact sample_valid_shape|]. split; [exact care_in_sample_pool|].
  exact (pool_words_upper_of_target_length no_table sample_valid sample_level
           sample_valid_shape (py "CARE") care_in_sample_pool).
Defined.

Lemma missing_bucket_is_empty_witness :
  py "5" ∈ target_lengths
  ∧ sample_valid !! py "5" = None
  ∧ pool_of no_table sample_valid sample_level
      = pool_of no_table (<[py "5" := []]> sample_valid) sample_level
  ∧ ∀ u, u ∈ pool_of no_table sample_valid sample_level →
         ∃ k' ws w, k' ≠ py "5" ∧ k' ∈ target_lengths ∧ sample_valid !! k' = Some ws
                    ∧ w ∈ ws ∧ u = str_upper no_table w.
Proof.
  assert (py "5" ∈ target_lengths) as Hk by in_list.
  assert (sample_valid !! py "5" = None) as Hnone.
  { apply lookup_singleton_ne. discriminate. }
  split; [exact Hk|]. split; [exact Hnone|].
  destruct (missing_bucket_is_empty no_table (fun _ => None) (fun _ => None)
              sample_valid sample_level (py "5") Hk Hnone) as (Hpool & Hfrom & _).
  split; [exact Hpool|exact Hfrom].
Defined.

(** ** The definition resolver *)

Section ResolverProperties.

Variable unicode_lower : pystr -> pystr.
Variable synsets : pystr -> list Synset.

#[local] Abbreviation lower := (str_lower unicode_lower).
#[local] Abbreviation candidates := (candidates_of unicode_lower synsets).
#[local] Abbreviation best := (best_definition unicode_lower synsets).
#[local] Abbreviation filtered := (filtered_out unicode_lower).
#[local] Abbreviation proper := (looks_proper unicode_lower).

Lemma startswith_spec (s p : pystr) :
  startswith s p = true ↔ ∃ rest, s = p ++ rest.
Proof.
  revert s. induction p as [|c p IH]; intros [|d s]; simpl.
  - split; [by exists []|done].
  - split; [by exists (d :: s)|done].
  - split; [done|]. by intros [rest Hrest].
  - rewrite andb_true_iff, N.eqb_eq, IH. split.
    + intros [-> [rest ->]]. by exists rest.
    + intros [rest Hrest]. injection Hrest as -> ->. eauto.
Qed.

Lemma looks_proper_spec (s : Synset) :
  proper (definition s) = true ↔ filtered s.
Proof.
  unfold looks_proper, filtered_out, begins_with. rewrite existsb_exists. split.
  - intros (p & Hp & Hstart). exists p. split; [by apply list_elem_of_In|].
    by apply startswith_spec.
  - intros (p & Hp & Hstart). exists p. split; [by apply list_elem_of_In|].
    by apply startswith_spec.
Qed.

Lemma looks_proper_false (s : Synset) :
  proper (definition s) = false ↔ ¬ filtered s.
Proof. rewrite <- looks_proper_spec. by destruct (proper (definition s)). Qed.



Lemma find_none {A} (f : A → bool) (l : list A) :
  Forall (fun y => f y = true) l → List.find (fun y => negb (f y)) l = None.
Proof.
  induction 1 as [|y l Hy _ IH]; simpl; [done|]. by rewrite Hy.
Qed.

Lemma find_elem_of {A} (f : A → bool) (l : list A) (x : A) :
  List.find f l = Some x → x ∈ l ∧ f x = true.
Proof.
  intros Hfind. apply find_some in Hfind as [Hin Hx].
  split; [by apply list_elem_of_In|done].
Qed.

Lemma candidates_nil word : candidates word = [] ↔ synsets word = [].
Proof.
  unfold candidates_of.
  destruct (List.filter _ (synsets word)) as [|s direct] eqn:Hdirect; [done|].
  split; [done|]. intros Hnil. by rewrite Hnil in Hdirect.
Qed.

Lemma best_definition_unfold word :
  synsets word ≠ [] →
  best word =
    match List.find (fun s => negb (proper (definition s))) (candidates word) with
    | Some s => Some (definition s)
    | None => definition <$> head (candidates word)
    end.
Proof. unfold best_definition. by destruct (synsets word). Qed.



Lemma candidates_subset word s :
  s ∈ candidates_of unicode_lower synsets word → s ∈ synsets word.
Proof.
  unfold candidates_of.
  destruct (List.filter _ _) as [|d direct] eqn:Hd; [done|].
  rewrite <- Hd. intros Hs. apply list_elem_of_In, filter_In in Hs as [Hs _].
  by apply list_elem_of_In.
Qed.

(** C4: no definition is returned exactly when the database has no sense
    for the word; with a sense, the definition of one of the word's senses
    is returned. *)
Theorem best_definition_none_iff word :
  (best_definition unicode_lower synsets word = None ↔ synsets word = [])
  ∧ (synsets word ≠ [] →
     ∃ s, s ∈ synsets word
          ∧ best_definition unicode_lower synsets word = Some (definition s)).
Proof.
  assert (synsets word ≠ [] →
          ∃ s, s ∈ synsets word
               ∧ best_definition unicode_lower synsets word = Some (definition s))
    as Hsome.
  { intros Hsyns. rewrite (best_definition_unfold _ Hsyns).
    destruct (List.find _ _) as [s|] eqn:Hfind.
    - apply find_elem_of in Hfind as [Hs _]. exists s.
      split; [by apply candidates_subset|done].
    - destruct (candidates word) as [|s rest] eqn:Hc.
      + by apply candidates_nil in Hc.
      + exists s. split; [|done]. apply candidates_subset. rewrite Hc.
        apply list_elem_of_here. }
  split; [|done]. split.
  - intros Hnone. destruct (synsets word) as [|s syns] eqn:Hsyns; [done|].
    destruct Hsome as (s' & _ & Hdefn); [done|]. congruence.
  - intros Hnil. unfold best_definition. by rewrite Hnil.
Qed.

End ResolverProperties.

(** ** The batch driver *)

Section DriverProperties.

Variable unicode_lower : pystr -> pystr.
Variable synsets : pystr -> list Synset.

#[local] Abbreviation lower := (str_lower unicode_lower).
#[local] Abbreviation best := (best_definition unicode_lower synsets).
#[local] Abbreviation resolved' := (resolved unicode_lower synsets).
#[local] Abbreviation hits' := (hits unicode_lower synsets).
#[local] Abbreviation misses' := (misses unicode_lower synsets).
#[local] Abbreviation body := (loop_body unicode_lower synsets).
#[local] Abbreviation loop := (main_loop unicode_lower synsets).
#[local] Abbreviation run := (run_main unicode_lower synsets).

Lemma resolved_some w defn :
  resolved' w = Some defn ↔ best (lower w) = Some defn ∧ defn ≠ [].
Proof.
  unfold resolved. destruct (best (lower w)) as [[|c d]|].
  - split; [done|]. intros [[= <-] Hne]. done.
  - split; [intros [= <-]; done|]. by intros [? _].
  - split; [done|]. by intros [? _].
Qed.

Lemma resolved_none w :
  resolved' w = None ↔ best (lower w) = None ∨ best (lower w) = Some [].
Proof.
  unfold resolved. destruct (best (lower w)) as [[|c d]|].
  - split; auto.
  - split; [done|]. by intros [?|?].
  - split; auto.
Qed.

Lemma loop_body_resolved st w :
  body st w = match resolved' w with
              | Some defn => (dict_setitem st.1 w defn, st.2)
              | None => (st.1, S st.2)
              end.
Proof. unfold loop_body, resolved. by destruct (best (lower w)) as [[|c d]|]. Qed.

Lemma dict_setitem_new (d : pydict) k v :
  k ∉ dict_keys d → dict_setitem d k v = d ++ [(k, v)].
Proof.
  unfold dict_keys. induction d as [|[k' v'] d IH]; simpl; [done|].
  rewrite not_elem_of_cons. intros [Hne Hnot].
  destruct (decide (k' = k)) as [->|_]; [done|]. by rewrite IH.
Qed.

Lemma main_loop_from (d : pydict) (m : nat) words :
  NoDup words → (∀ w, w ∈ words → w ∉ dict_keys d) →
  foldl body (d, m) words = (d ++ hits' words, (m + length (misses' words))%nat).
Proof.
  intros Hnodup. revert d m.
  induction Hnodup as [|w words Hw Hnodup IH]; intros d m Hfresh; simpl.
  - by rewrite app_nil_r, Nat.add_0_r.
  - rewrite loop_body_resolved. simpl.
    unfold hits, misses. simpl. fold (hits' words). fold (misses' words).
    destruct (resolved' w) as [defn|] eqn:Hres; simpl.
    + rewrite dict_setitem_new by (apply Hfresh, list_elem_of_here).
      rewrite IH.
      * by rewrite <- app_assoc.
      * intros w' Hw'. unfold dict_keys. rewrite fmap_app, elem_of_app.
        intros [Hin|Hin].
        -- by apply (Hfresh w'); [apply list_elem_of_further|].
        -- apply list_elem_of_singleton in Hin. simpl in Hin. congruence.
    + rewrite IH.
      * f_equal. lia.
      * intros w' Hw'. apply Hfresh. by apply list_elem_of_further.
Qed.

Lemma main_loop_spec words :
  NoDup words → loop words = (hits' words, length (misses' words)).
Proof.
  intros Hnodup. unfold main_loop.
  rewrite main_loop_from; [done|done|]. intros w _ Hin. by apply elem_of_nil in Hin.
Qed.

Lemma hits_misses_length words :
  (length (hits' words) + length (misses' words) = length words)%nat.
Proof.
  unfold hits, misses. induction words as [|w words IH]; csimpl; [done|].
  destruct (resolved' w); csimpl; lia.
Qed.

Lemma elem_of_hits words k v :
  (k, v) ∈ hits' words ↔ k ∈ words ∧ resolved' k = Some v.
Proof.
  unfold hits. rewrite list_elem_of_omap. split.
  - intros (w & Hw & Heq). destruct (resolved' w) as [d|] eqn:Hres; [|done].
    injection Heq as <- <-. done.
  - intros [Hk Hres]. exists k. by rewrite Hres.
Qed.

Lemma elem_of_misses words w :
  w ∈ misses' words ↔ w ∈ words ∧ resolved' w = None.
Proof.
  unfold misses. rewrite list_elem_of_In, filter_In, <- list_elem_of_In.
  destruct (resolved' w); split; try done; by intros [? ?].
Qed.

Lemma hits_keys_sublist words : dict_keys (hits' words) `sublist_of` words.
Proof.
  unfold dict_keys, hits. induction words as [|w words IH]; csimpl; [constructor|].
  destruct (resolved' w); csimpl; by constructor.
Qed.

Lemma misses_sublist words : misses' words `sublist_of` words.
Proof.
  unfold misses. induction words as [|w words IH]; simpl; [constructor|].
  destruct (resolved' w); by constructor.
Qed.

Lemma sorted_words_perm (pool : gset pystr) : sorted_words pool ≡ₚ elements pool.
Proof. apply merge_sort_Permutation. Qed.

Lemma sorted_words_nodup (pool : gset pystr) : NoDup (sorted_words pool).
Proof. rewrite sorted_words_perm. apply NoDup_elements. Qed.

Lemma elem_of_sorted_words (pool : gset pystr) w : w ∈ sorted_words pool ↔ w ∈ pool.
Proof. rewrite sorted_words_perm. apply elem_of_elements. Qed.

Lemma dict_of_items_nodup (items : list (pystr * pystr)) :
  NoDup items.*1 → dict_of_items items = items.
Proof.
  unfold dict_of_items.
  assert (∀ acc : pydict, NoDup (acc ++ items).*1 →
            foldl (fun d kv => dict_setitem d kv.1 kv.2) acc items = acc ++ items)
    as Hfold.
  { induction items as [|[k v] items IH]; intros acc Hnodup; simpl.
    - by rewrite app_nil_r.
    - rewrite dict_setitem_new.
      + rewrite IH; rewrite <- app_assoc; done.
      + rewrite fmap_app in Hnodup. apply NoDup_app in Hnodup as (_ & Hdisj & _).
        intros Hin. apply (Hdisj k Hin). simpl. apply list_elem_of_here. }
  intros Hnodup. by rewrite Hfold.
Qed.

Lemma strongly_sorted_strict (ks : list pystr) :
  StronglySorted str_le ks → NoDup ks → StronglySorted str_lt ks.
Proof.
  induction 1 as [|k ks Hks IH Hall]; intros Hnodup; constructor.
  - apply IH. by apply NoDup_cons in Hnodup as [_ ?].
  - apply NoDup_cons in Hnodup as [Hk _].
    rewrite Forall_forall in Hall |- *. intros k' Hk'.
    destruct (proj1 (str_le_lt_eq k k') (Hall k' Hk')) as [?| ->]; done.
Qed.

(** What the run leaves in [ordered]: the hits, sorted. *)
Lemma run_ordered_spec (pool : gset pystr) :
  run_ordered (run pool) = sorted_items (hits' (sorted_words pool))
  ∧ run_definitions (run pool) = hits' (sorted_words pool)
  ∧ run_no_def_count (run pool) = length (misses' (sorted_words pool))
  ∧ NoDup (dict_keys (run_ordered (run pool))).
Proof.
  unfold run_main. simpl. rewrite main_loop_spec by apply sorted_words_nodup. simpl.
  assert (NoDup (sorted_items (hits' (sorted_words pool))).*1) as Hnodup.
  { unfold sorted_items. rewrite merge_sort_Permutation.
    eapply sublist_NoDup; [apply sorted_words_nodup|apply hits_keys_sublist]. }
  rewrite dict_of_items_nodup by done. done.
Qed.

Lemma elem_of_run_ordered (pool : gset pystr) k v :
  (k, v) ∈ run_ordered (run pool) ↔ k ∈ pool ∧ resolved' k = Some v.
Proof.
  destruct (run_ordered_spec pool) as (-> & _). unfold sorted_items.
  rewrite merge_sort_Permutation, elem_of_hits, elem_of_sorted_words. done.
Qed.

Lemma json_escape_printable c : Forall (fun c' => (32 ≤ c')%N) (json_escape c).
Proof.
  assert (∀ n, (48 ≤ hex_digit n)%N) as Hhex.
  { intros n. unfold hex_digit. destruct (N.ltb_spec n 10); lia. }
  unfold json_escape.
  repeat match goal with
         | |- context [N.eqb c ?n] => destruct (N.eqb_spec c n)
         end; try (repeat constructor; lia).
  destruct (N.ltb_spec c 32).
  - repeat constructor; try lia.
    + specialize (Hhex (c / 16)%N). lia.
    + specialize (Hhex (c mod 16)%N). lia.
  - repeat constructor. done.
Qed.

Lemma json_string_printable s : Forall (fun c => (32 ≤ c)%N) (json_string s).
Proof.
  unfold json_string. rewrite !Forall_app. split; [repeat constructor; lia|].
  split; [|repeat constructor; lia].
  induction s as [|c s IH]; simpl; [constructor|].
  rewrite Forall_app. split; [apply json_escape_printable|done].
Qed.

Lemma join_forall (P : N → Prop) (sep : pystr) (parts : list pystr) :
  Forall P sep → Forall (Forall P) parts → Forall P (join sep parts).
Proof.
  intros Hsep. induction 1 as [|p parts Hp Hparts IH]; simpl; [constructor|].
  destruct parts as [|q parts]; [done|].
  rewrite !Forall_app. done.
Qed.

Lemma json_dumps_printable (d : pydict) : Forall (fun c => (32 ≤ c)%N) (json_dumps d).
Proof.
  unfold json_dumps. rewrite !Forall_app. split; [repeat constructor; lia|].
  split; [|repeat constructor; lia].
  assert (∀ kv, Forall (fun c => (32 ≤ c)%N) (json_member kv)) as Hmember.
  { intros kv. unfold json_member. rewrite !Forall_app.
    split; [apply json_string_printable|].
    split; [repeat constructor; lia|apply json_string_printable]. }
  apply join_forall; [repeat constructor; lia|].
  apply Forall_fmap, Forall_forall. intros kv _. apply Hmember.
Qed.

(** C6: every key of the output map is a word of the pool and maps to a
    definition that is not empty, the one the resolver returns for it; a
    pool word without a definition, or with an empty one, is not a key. *)
Theorem output_keys_in_pool (pool : gset pystr) :
  let r := run_main unicode_lower synsets pool in
  let resolve w := best_definition unicode_lower synsets (str_lower unicode_lower w) in
  (∀ k v, (k, v) ∈ run_ordered r → k ∈ pool ∧ v ≠ [] ∧ resolve k = Some v)
  ∧ (∀ w, w ∈ pool → resolve w = None ∨ resolve w = Some [] →
          w ∉ dict_keys (run_ordered r))
  ∧ run_ordered r ≡ₚ run_definitions r.
Proof.
  intros r resolve. subst r resolve. split; [|split].
  - intros k v Hkv. apply elem_of_run_ordered in Hkv as [Hk Hres].
    apply resolved_some in Hres as [Hbest Hne]. done.
  - intros w Hw Hmiss Hin. apply resolved_none in Hmiss.
    unfold dict_keys in Hin. apply list_elem_of_fmap in Hin as ([k v] & -> & Hkv).
    apply elem_of_run_ordered in Hkv as [_ Hres]. simpl in Hmiss. congruence.
  - destruct (run_ordered_spec pool) as (-> & -> & _).
    apply merge_sort_Permutation.
Qed.

(** C7: the keys of the object written are in strictly ascending order, and
    it is written on one line, member after member, with a bare comma
    between two members and a bare colon inside each, before the final line
    feed. *)
Theorem output_keys_ascending (pool : gset pystr) :
  let r := run_main unicode_lower synsets pool in
  StronglySorted str_lt (dict_keys (run_ordered r))
  ∧ run_written r
      = [123%N] ++ join [44%N] (json_member <$> run_ordered r) ++ [125%N; 10%N]
  ∧ Forall (fun c => (32 ≤ c)%N) (json_dumps (run_ordered r)).
Proof.
  intros r. subst r. split; [|split].
  - destruct (run_ordered_spec pool) as (Hordered & _ & _ & Hnodup).
    apply strongly_sorted_strict; [|done]. rewrite Hordered.
    apply (StronglySorted_fmap fst item_le str_le); [apply item_le_key|].
    apply StronglySorted_merge_sort; apply _.
  - unfold run_main, json_dumps. simpl. by rewrite <- !app_assoc.
  - apply json_dumps_printable.
Qed.

(** C10: after each word of the loop, the entries of the definition map and
    the misses counted add up to the words handled so far; at the end every
    pool word either has one entry in the output, with the definition
    resolved for it, and is not among the misses, or is among the misses,
    counted once, and has no entry. *)
Theorem driver_accounting (pool : gset pystr) :
  let words := sorted_words pool in
  let r := run_main unicode_lower synsets pool in
  let missed := misses unicode_lower synsets words in
  (∀ n, (n ≤ length words)%nat →
        let st := main_loop unicode_lower synsets (take n words) in
        (length st.1 + st.2 = n)%nat)
  ∧ (length (run_definitions r) + run_no_def_count r = size pool)%nat
  ∧ run_no_def_count r = length missed
  ∧ NoDup missed
  ∧ ∀ w, w ∈ pool →
      (∃ defn, resolved unicode_lower synsets w = Some defn
               ∧ List.filter (fun kv => bool_decide (kv.1 = w)) (run_ordered r)
                 = [(w, defn)]
               ∧ w ∉ missed)
      ∨ (resolved unicode_lower synsets w = None ∧ w ∈ missed
         ∧ w ∉ dict_keys (run_ordered r)).
Proof.
  intros words r missed. subst r missed.
  destruct (run_ordered_spec pool) as (Hordered & Hdefs & Hcount & Hnodup).
  split; [|split; [|split; [|split]]].
  - intros n Hn. simpl.
    rewrite main_loop_spec.
    + simpl. rewrite hits_misses_length. by apply length_take_le.
    + eapply sublist_NoDup; [apply sorted_words_nodup|apply sublist_take].
  - rewrite Hdefs, Hcount, hits_misses_length.
    unfold size, set_size. simpl. by rewrite sorted_words_perm.
  - done.
  - eapply sublist_NoDup; [apply sorted_words_nodup|apply misses_sublist].
  - intros w Hw. destruct (resolved' w) as [defn|] eqn:Hres.
    + left. exists defn. split; [done|]. split.
      * assert ((w, defn) ∈ run_ordered (run pool)) as Hin
          by (by apply elem_of_run_ordered).
        revert Hnodup Hin. unfold dict_keys.
        generalize (run_ordered (run pool)). intros d.
        induction d as [|[k v] d IH]; simpl; intros Hnd Hin;
          [by apply elem_of_nil in Hin|].
        apply NoDup_cons in Hnd as [Hk Hnd].
        apply elem_of_cons in Hin as [Heq|Hin].
        -- injection Heq as <- <-. rewrite bool_decide_eq_true_2 by done. f_equal.
           clear IH Hnd. induction d as [|[k' v'] d IH]; simpl; [done|].
           simpl in Hk. apply not_elem_of_cons in Hk as [Hne Hk].
           rewrite bool_decide_eq_false_2 by done. by apply IH.
        -- rewrite bool_decide_eq_false_2; [by apply IH|].
           simpl. intros ->. apply Hk. apply list_elem_of_fmap. by exists (w, defn).
      * rewrite elem_of_misses. intros [_ ?]. congruence.
    + right. split; [done|]. split.
      * apply elem_of_misses. split; [by apply elem_of_sorted_words|done].
      * unfold dict_keys. intros Hin.
        apply list_elem_of_fmap in Hin as ([k v] & -> & Hkv).
        apply elem_of_run_ordered in Hkv as [_ Hres']. simpl in Hres. congruence.
Qed.

End DriverProperties.

(** ** Reading the input files *)

Section LoaderProperties.

Variable unicode_upper : pystr -> pystr.
Variable parse_valid_words : pystr -> option ValidWords.
Variable parse_level_words : pystr -> option LevelWords.

#[local] Abbreviation build := (build_daily_pool unicode_upper parse_valid_words parse_level_words).

(** Under ["utf-8"] a leading byte-order mark stays in the text, as its
    first code point. *)
Lemma utf8_keeps_bom (bs : list Byte.byte) :
  decode_bytes Utf8 ([xef; xbb; xbf]%byte ++ bs)
  = (text <- decode_bytes Utf8 bs ;; Ok (BOM :: text)).
Proof.
  unfold decode_bytes. rewrite map_app.
  change (List.map Byte.to_N [xef; xbb; xbf]%byte) with [239; 187; 191]%N.
  change (utf8_decode ([239; 187; 191]%N ++ List.map Byte.to_N bs))
    with (cons BOM <$> utf8_decode (List.map Byte.to_N bs)).
  by destruct (utf8_decode (List.map Byte.to_N bs)).
Qed.

(** Under ["utf-8-sig"] it is dropped. *)
Lemma utf8_sig_drops_bom (bs : list Byte.byte) :
  decode_bytes Utf8Sig ([xef; xbb; xbf]%byte ++ bs) = decode_bytes Utf8 bs.
Proof. unfold decode_bytes. rewrite map_app. done. Qed.

Lemma json_loads_bom {A} (parse : pystr → option A) (text : pystr) :
  json_loads parse (BOM :: text) = Raise JSONDecodeError.
Proof. reflexivity. Qed.

(** With a byte-order mark in front of [valid_words.json] no pool is built,
    whatever follows the mark and whatever [words.json] holds. *)
Lemma valid_words_bom_refused (bs : list Byte.byte) level_file :
  build (Some ([xef; xbb; xbf]%byte ++ bs)) level_file = Raise JSONDecodeError
  ∨ build (Some ([xef; xbb; xbf]%byte ++ bs)) level_file = Raise UnicodeDecodeError.
Proof.
  unfold build_daily_pool, read_text. rewrite utf8_keeps_bom.
  destruct (decode_bytes Utf8 bs) as [text|e] eqn:Hdec; simpl.
  - by left.
  - right. unfold decode_bytes in Hdec.
    destruct (utf8_decode _); [done|]. by injection Hdec as <-.
Qed.

(** [words.json] is read the same with the mark in front as a plain file
    without it. *)
Lemma level_words_bom_accepted (bs : list Byte.byte) :
  read_text Utf8Sig (Some ([xef; xbb; xbf]%byte ++ bs)) = read_text Utf8 (Some bs).
Proof. unfold read_text. by rewrite utf8_sig_drops_bom. Qed.

(** C9 fails on the code: [valid_words.json] is opened as ["utf-8"], so the
    mark reaches [json.loads], which refuses it, whatever the grammar accepts
    and whatever [words.json] holds; [words.json], opened as ["utf-8-sig"],
    is read with the mark as without. *)
Theorem bom_in_valid_words_refused level_file :
  build_daily_pool unicode_upper parse_valid_words parse_level_words
                   (Some bom_braces) level_file
  = Raise JSONDecodeError
  ∧ read_text Utf8Sig (Some bom_braces) = read_text Utf8 (Some plain_braces)
  ∧ read_text Utf8 (Some plain_braces) = Ok (py "{}").
Proof. split; [reflexivity|]. split; reflexivity. Qed.

(** A pool is built from files that are there, decode, carry no mark the
    codec keeps, and parse; [main] then runs the driver on it. *)
Lemma build_daily_pool_loaded valid_file level_file valid_text level_text
    valid_root level_root :
  read_text Utf8 valid_file = Ok valid_text →
  json_loads parse_valid_words valid_text = Ok valid_root →
  read_text Utf8Sig level_file = Ok level_text →
  json_loads parse_level_words level_text = Ok level_root →
  build valid_file level_file = Ok (pool_of unicode_upper valid_root level_root).
Proof.
  intros Hvt Hvr Hlt Hlr. unfold build_daily_pool.
  rewrite Hvt. simpl. rewrite Hvr. simpl. rewrite Hlt. simpl. rewrite Hlr. done.
Qed.

Lemma main_run (unicode_lower : pystr → pystr) (synsets : pystr → list Synset)
    valid_file level_file pool :
  build valid_file level_file = Ok pool →
  main unicode_upper unicode_lower parse_valid_words parse_level_words synsets
       valid_file level_file
  = Ok (run_main unicode_lower synsets pool).
Proof. intros Hpool. unfold main. by rewrite Hpool. Qed.

End LoaderProperties.

(** ** The resolver and the driver on the sample database *)





(** The sense found for "wound" is the noun, though the verb comes first. *)
Example wound_definition :
  best_definition no_table sample_synsets (str_lower no_table (py "WOUND"))
  = Some (py "an injury to living tissue").
Proof. reflexivity. Qed.

(** The one sense of "celt" looks like a proper noun and is returned all the
    same; "zzzz" has no sense and no definition. *)
Example celt_definition :
  looks_proper no_table (definition celt_noun) = true
  ∧ best_definition no_table sample_synsets (py "celt") = Some (definition celt_noun)
  ∧ best_definition no_table sample_synsets (py "zzzz") = None.
Proof. repeat split. Qed.

Lemma care_has_sense : sample_synsets (py "care") ≠ [].
Proof. discriminate. Defined.

Lemma best_definition_none_iff_witness :
  sample_synsets (py "care") ≠ []
  ∧ ∃ s, s ∈ sample_synsets (py "care")
         ∧ best_definition no_table sample_synsets (py "care") = Some (definition s).
Proof.
  split; [exact care_has_sense|].
  exact (proj2 (best_definition_none_iff no_table sample_synsets (py "care")) care_has_sense).
Defined.

(** The example of the specification, to the end: the pool [{"CARE"}] is
    written as [{"CARE":"feel concern or interest"}] and a line feed. *)
Example sample_run_written :
  run_written (run_main no_table sample_synsets {[ py "CARE" ]})
  = [123; 34]%N ++ py "CARE" ++ [34; 58; 34]%N ++ py "feel concern or interest"
    ++ [34; 125; 10]%N.
Proof. vm_compute. reflexivity. Qed.

(** A run on the empty pool writes [{}] and ends in the division by the
    number of words. *)
Example empty_run :
  run_written (run_main no_table sample_synsets ∅) = py "{}" ++ [10%N]
  ∧ run_fault (run_main no_table sample_synsets ∅) = Some ZeroDivisionError.
Proof. split; vm_compute; reflexivity. Qed.

(** ** More on the pool builder *)

Section PoolComposition.

Variable unicode_upper : pystr -> pystr.
Variable unicode_lower : pystr -> pystr.

#[local] Abbreviation upper := (str_upper unicode_upper).
#[local] Abbreviation lower := (str_lower unicode_lower).

(** X1: only the buckets "4", "5" and "6" of the valid list are read: setting
    or deleting any other bucket leaves the pool as it is. *)
Theorem other_buckets_ignored (valid_root : ValidWords) (level_root : LevelWords) k ws :
  k ∉ target_lengths →
  pool_of unicode_upper (<[k := ws]> valid_root) level_root
    = pool_of unicode_upper valid_root level_root
  ∧ pool_of unicode_upper (delete k valid_root) level_root
    = pool_of unicode_upper valid_root level_root.
Proof.
  intros Hk.
  assert (∀ k', k' ∈ target_lengths → k ≠ k') as Hne by (intros k' Hk' ->; done).
  split; apply set_eq; intros u; rewrite !elem_of_pool_of;
    (assert (∀ V V' : ValidWords,
               (∀ k', k' ∈ target_lengths → V !! k' = V' !! k') →
               from_valid unicode_upper V u → from_valid unicode_upper V' u) as Hmono;
     [intros V V' Hsame (k' & ws' & w & Hk' & Hlook & Hw & ->);
      exists k', ws', w; rewrite <- (Hsame k' Hk'); done|]).
  - split; intros [Hv Hl]; (split; [|done]); revert Hv; apply Hmono; intros k' Hk'.
    + by rewrite lookup_insert_ne by auto.
    + by rewrite lookup_insert_ne by auto.
  - split; intros [Hv Hl]; (split; [|done]); revert Hv; apply Hmono; intros k' Hk'.
    + by rewrite lookup_delete_ne by auto.
    + by rewrite lookup_delete_ne by auto.
Qed.

Lemma from_level_cons (level_root : LevelWords) k e u :
  from_level unicode_upper (<[k := e :: dict_get_list level_root k]> level_root) u
  ↔ u = upper (entry_word e) ∨ from_level unicode_upper level_root u.
Proof.
  unfold from_level, dict_get_list. split.
  - intros (k' & items & e' & Hlook & He' & ->).
    destruct (decide (k = k')) as [<-|Hne].
    + rewrite lookup_insert_eq in Hlook. injection Hlook as <-.
      apply elem_of_cons in He' as [->|He']; [by left|]. right.
      destruct (level_root !! k) as [old|] eqn:Hold; simpl in He';
        [|by apply elem_of_nil in He'].
      exists k, old, e'. done.
    + rewrite lookup_insert_ne in Hlook by done. right. exists k', items, e'. done.
  - intros [->|(k' & items & e' & Hlook & He' & ->)].
    + exists k, (e :: default [] (level_root !! k)), e.
      rewrite lookup_insert_eq. split; [done|]. split; [apply list_elem_of_here|done].
    + destruct (decide (k = k')) as [<-|Hne].
      * exists k, (e :: default [] (level_root !! k)), e'.
        rewrite lookup_insert_eq, Hlook. simpl.
        split; [done|]. split; [by apply list_elem_of_further|done].
      * exists k', items, e'. rewrite lookup_insert_ne by done. done.
Qed.

(** X2: an entry added to the level list, in whatever bucket, takes its word
    (in upper case) out of the pool and changes nothing else. *)
Theorem level_entry_removes_word (valid_root : ValidWords) (level_root : LevelWords) k e :
  pool_of unicode_upper valid_root
          (<[k := e :: dict_get_list level_root k]> level_root)
  = pool_of unicode_upper valid_root level_root ∖ {[ upper (entry_word e) ]}.
Proof.
  apply set_eq. intros u.
  rewrite elem_of_difference, elem_of_singleton, !elem_of_pool_of, from_level_cons.
  split.
  - intros [Hv Hl]. split; [split; [done|]|]; intros ?; apply Hl; auto.
  - intros [[Hv Hl] Hne]. split; [done|]. intros [?|?]; done.
Qed.

Lemma from_valid_snoc (valid_root : ValidWords) k w u :
  k ∈ target_lengths →
  from_valid unicode_upper (<[k := dict_get_list valid_root k ++ [w]]> valid_root) u
  ↔ u = upper w ∨ from_valid unicode_upper valid_root u.
Proof.
  intros Hk. unfold from_valid, dict_get_list. split.
  - intros (k' & ws & w' & Hk' & Hlook & Hw' & ->).
    destruct (decide (k = k')) as [<-|Hne].
    + rewrite lookup_insert_eq in Hlook. injection Hlook as <-.
      apply elem_of_app in Hw' as [Hw'|Hw'].
      * right. destruct (valid_root !! k) as [old|] eqn:Hold; simpl in Hw';
          [|by apply elem_of_nil in Hw'].
        exists k, old, w'. done.
      * apply list_elem_of_singleton in Hw' as ->. by left.
    + rewrite lookup_insert_ne in Hlook by done. right. exists k', ws, w'. done.
  - intros [->|(k' & ws & w' & Hk' & Hlook & Hw' & ->)].
    + exists k, (default [] (valid_root !! k) ++ [w]), w.
      rewrite lookup_insert_eq. split; [done|]. split; [done|].
      split; [|done]. apply elem_of_app. right. apply list_elem_of_here.
    + destruct (decide (k = k')) as [<-|Hne].
      * exists k, (default [] (valid_root !! k) ++ [w]), w'.
        rewrite lookup_insert_eq, Hlook. simpl.
        split; [done|]. split; [done|]. split; [|done]. apply elem_of_app. by left.
      * exists k', ws, w'. rewrite lookup_insert_ne by done. done.
Qed.

(** X3: a word added to one of the three buckets of the valid list adds its
    upper-case form to the pool unless it is a level word, and changes
    nothing else. *)
Theorem valid_word_adds_word (valid_root : ValidWords) (level_root : LevelWords) k w :
  k ∈ target_lengths →
  pool_of unicode_upper (<[k := dict_get_list valid_root k ++ [w]]> valid_root) level_root
  = if decide (upper w ∈ excluded_of unicode_upper level_root)
    then pool_of unicode_upper valid_root level_root
    else pool_of unicode_upper valid_root level_root ∪ {[ upper w ]}.
Proof.
  intros Hk. apply set_eq. intros u.
  rewrite elem_of_pool_of, (from_valid_snoc _ _ _ _ Hk).
  destruct (decide (upper w ∈ excluded_of unicode_upper level_root)) as [Hin|Hnot].
  - rewrite elem_of_pool_of. apply elem_of_excluded_of in Hin. split.
    + intros [[->|Hv] Hl]; done.
    + intros [Hv Hl]. auto.
  - rewrite elem_of_union, elem_of_singleton, elem_of_pool_of.
    rewrite elem_of_excluded_of in Hnot. split.
    + intros [[->|Hv] Hl]; auto.
    + intros [[Hv Hl]| ->]; auto.
Qed.

Lemma ascii_case_char (c d : N) :
  (c < 128)%N → (d < 128)%N →
  ascii_lower c = ascii_lower d → ascii_upper c = ascii_upper d.
Proof.
  unfold ascii_lower, ascii_upper. intros Hc Hd.
  destruct (N.leb_spec 65 c), (N.leb_spec c 90), (N.leb_spec 65 d), (N.leb_spec d 90),
    (N.leb_spec 97 c), (N.leb_spec c 122), (N.leb_spec 97 d), (N.leb_spec d 122);
    simpl; lia.
Qed.

Lemma ascii_case_string (a b : pystr) :
  is_ascii a = true → is_ascii b = true →
  List.map ascii_lower a = List.map ascii_lower b →
  List.map ascii_upper a = List.map ascii_upper b.
Proof.
  revert b. induction a as [|c a IH]; intros [|d b]; simpl; try done.
  rewrite !andb_true_iff, !N.ltb_lt. intros [Hc Ha] [Hd Hb] [= Hcd Hab].
  f_equal; [by apply ascii_case_char|by apply IH].
Qed.

(** X4: on ASCII words the exclusion ignores letter case: a word equal, case
    apart, to the word of a level entry is not in the pool, however either
    is spelled. *)
Theorem exclusion_ignores_case (valid_root : ValidWords) (level_root : LevelWords)
    k items e w :
  level_root !! k = Some items → e ∈ items →
  is_ascii w = true → is_ascii (entry_word e) = true →
  lower w = lower (entry_word e) →
  upper w ∉ pool_of unicode_upper valid_root level_root.
Proof.
  intros Hlook He Hw Hv Hcase Hin.
  apply elem_of_pool_of in Hin as [_ Hnot]. apply Hnot.
  exists k, items, e. split; [done|]. split; [done|].
  unfold str_lower in Hcase. rewrite Hw, Hv in Hcase.
  unfold str_upper. rewrite Hw, Hv. by apply ascii_case_string.
Qed.

Lemma size_add_le (X : gset pystr) (x : pystr) : size (X ∪ {[ x ]}) ≤ S (size X).
Proof.
  rewrite size_union_alt.
  assert (size (({[ x ]} : gset pystr) ∖ X) ≤ size ({[ x ]} : gset pystr)) as Hle
    by (apply subseteq_size; intros y Hy; by apply elem_of_difference in Hy as [? _]).
  rewrite size_singleton in Hle. lia.
Qed.

(** X5: the pool never holds more words than the three buckets list:
    repeated words, and words that differ by case only, count once. *)
Theorem pool_size_bound (valid_root : ValidWords) (level_root : LevelWords) :
  size (pool_of unicode_upper valid_root level_root)
  ≤ length (dict_get_list valid_root (py "4"))
    + length (dict_get_list valid_root (py "5"))
    + length (dict_get_list valid_root (py "6")).
Proof.
  unfold pool_of.
  set (excluded := excluded_of unicode_upper level_root).
  assert (∀ (ws : list pystr) (pool : gset pystr),
            size (foldl (fun pool w =>
                           let uw := upper w in
                           if decide (uw ∉ excluded) then pool ∪ {[ uw ]} else pool)
                        pool ws)
            ≤ size pool + length ws) as Hbucket.
  { induction ws as [|w ws IH]; intros pool; simpl; [lia|].
    etrans; [apply IH|]. destruct (decide _); [|lia].
    pose proof (size_add_le pool (upper w)). lia. }
  simpl.
  set (body := fun (pool : gset pystr) w =>
                 let uw := upper w in
                 if decide (uw ∉ excluded) then pool ∪ {[ uw ]} else pool) in *.
  pose proof (Hbucket (dict_get_list valid_root (py "4")) ∅) as H4.
  pose proof (Hbucket (dict_get_list valid_root (py "5"))
                (foldl body ∅ (dict_get_list valid_root (py "4")))) as H5.
  pose proof (Hbucket (dict_get_list valid_root (py "6"))
                (foldl body (foldl body ∅ (dict_get_list valid_root (py "4")))
                       (dict_get_list valid_root (py "5")))) as H6.
  rewrite size_empty in H4. lia.
Qed.

End PoolComposition.

(** ** More on reading the input files *)

Section LoaderComposition.

Variable unicode_upper : pystr -> pystr.
Variable parse_valid_words : pystr -> option ValidWords.
Variable parse_level_words : pystr -> option LevelWords.

#[local] Abbreviation build := (build_daily_pool unicode_upper parse_valid_words parse_level_words).

Lemma json_loads_ok {A} (parse : pystr → option A) text v :
  json_loads parse text = Ok v ↔ startswith text [BOM] = false ∧ parse text = Some v.
Proof.
  unfold json_loads. destruct (startswith text [BOM]).
  - split; [done|]. by intros [? _].
  - destruct (parse text) as [v'|].
    + split; [intros [= ->]; done|]. by intros [_ [= ->]].
    + split; [done|]. by intros [_ ?].
Qed.

Lemma decode_bytes_ok enc bs text :
  decode_bytes enc bs = Ok text
  ↔ utf8_decode (match enc with
                 | Utf8 => List.map Byte.to_N bs
                 | Utf8Sig => strip_sig (List.map Byte.to_N bs)
                 end) = Some text.
Proof.
  unfold decode_bytes. destruct (utf8_decode _) as [s|].
  - split; intros [= ->]; done.
  - split; done.
Qed.



(** X17: [check_defs.py] opens [words.json] as ["utf-8"]: a file that begins
    with the byte-order mark is refused there, while the definitions script
    reads it as the file without the mark. *)
Theorem check_defs_refuses_bom (bs : list Byte.byte) :
  (check_defs parse_level_words (Some ([xef; xbb; xbf]%byte ++ bs)) = Raise JSONDecodeError
   ∨ check_defs parse_level_words (Some ([xef; xbb; xbf]%byte ++ bs))
     = Raise UnicodeDecodeError)
  ∧ read_text Utf8Sig (Some ([xef; xbb; xbf]%byte ++ bs)) = read_text Utf8 (Some bs).
Proof.
  split; [|unfold read_text; by rewrite utf8_sig_drops_bom].
  unfold check_defs, read_text. rewrite utf8_keeps_bom.
  destruct (decode_bytes Utf8 bs) as [text|e] eqn:Hdec; simpl.
  - by left.
  - right. unfold decode_bytes in Hdec.
    destruct (utf8_decode _); [done|]. by injection Hdec as <-.
Qed.

Lemma report_bucket_length (d : LevelWords) l :
  1 ≤ length (report_bucket d l) ≤ 7.
Proof.
  unfold report_bucket. rewrite !length_app, length_fmap, length_take.
  pose proof (Nat.le_min_l 5 (length (dict_get_list d l))) as Hmin.
  remember (5 `min` length (dict_get_list d l)) as shown.
  destruct (decide _); simpl; lia.
Qed.

(** X18: on a [words.json] of the documented shape [check_defs.py] calls
    [print] five times at least and thirty-five times at most, once per
    bucket for the header, and prints no definition of more than sixty code
    points; each bucket shows its first entries, five at most, in their
    order, and then the number of the others when there are any. *)
Theorem check_report_bounded (d : LevelWords) :
  5 ≤ length (check_report d) ≤ 35
  ∧ Forall (fun call => match call with
                        | Item _ defn => length defn ≤ 60
                        | _ => True
                        end) (check_report d)
  ∧ ∀ l, ∃ shown rest,
      report_bucket d l
      = [Header l (length (dict_get_list d l))]
        ++ ((fun w => Item (entry_word w) (take 60 (entry_definition w))) <$> shown)
        ++ (match rest with [] => [] | _ :: _ => [More (length rest)] end)
      ∧ dict_get_list d l = shown ++ rest ∧ length shown ≤ 5
      ∧ (rest ≠ [] → length shown = 5).
Proof.
  split; [|split].
  - change (check_report d)
      with (report_bucket d (py "3") ++ report_bucket d (py "4")
            ++ report_bucket d (py "5") ++ report_bucket d (py "6")
            ++ report_bucket d (py "7") ++ []).
    rewrite !length_app. change (length (@nil PrintCall)) with 0.
    pose proof (report_bucket_length d (py "3")).
    pose proof (report_bucket_length d (py "4")).
    pose proof (report_bucket_length d (py "5")).
    pose proof (report_bucket_length d (py "6")).
    pose proof (report_bucket_length d (py "7")). lia.
  - unfold check_report. apply Forall_forall. intros line Hline.
    apply list_elem_of_join in Hline as (lines & Hline & Hlines).
    apply list_elem_of_fmap in Hlines as (l & -> & _).
    unfold report_bucket in Hline.
    apply elem_of_app in Hline as [Hline|Hline];
      [by apply list_elem_of_singleton in Hline as ->|].
    apply elem_of_app in Hline as [Hline|Hline].
    + apply list_elem_of_fmap in Hline as (w & -> & _). rewrite length_take. lia.
    + destruct (decide _); [|by apply elem_of_nil in Hline].
      by apply list_elem_of_singleton in Hline as ->.
  - intros l. exists (take 5 (dict_get_list d l)), (drop 5 (dict_get_list d l)).
    split; [|split; [by rewrite take_drop|split]].
    + unfold report_bucket. do 2 f_equal.
      destruct (decide (5 < length (dict_get_list d l))) as [Hlt|Hge].
      * destruct (drop 5 (dict_get_list d l)) eqn:Hdrop.
        -- apply (f_equal length) in Hdrop. rewrite length_drop in Hdrop. simpl in Hdrop. lia.
        -- rewrite <- Hdrop, length_drop. done.
      * rewrite drop_ge by lia. done.
    + rewrite length_take. lia.
    + intros Hrest. rewrite length_take.
      destruct (decide (5 ≤ length (dict_get_list d l))); [lia|].
      rewrite drop_ge in Hrest by lia. done.
Qed.

End LoaderComposition.

(** ** More on the definition resolver *)

Section ResolverComposition.

Variable unicode_lower : pystr -> pystr.
Variable synsets : pystr -> list Synset.

(** X9: a definition returned is the gloss of one of the senses the
    database lists for the word, and of one of the preferred candidates:
    nothing is made up, cut or joined. *)
Theorem best_definition_is_a_sense word defn :
  best_definition unicode_lower synsets word = Some defn →
  ∃ s, s ∈ synsets word ∧ s ∈ candidates_of unicode_lower synsets word
       ∧ definition s = defn.
Proof.
  intros Hbest.
  assert (synsets word ≠ []) as Hsyns.
  { intros Hnil. unfold best_definition in Hbest. by rewrite Hnil in Hbest. }
  rewrite (best_definition_unfold _ _ _ Hsyns) in Hbest.
  destruct (List.find _ _) as [s|] eqn:Hfind.
  - injection Hbest as <-. apply find_elem_of in Hfind as [Hs _].
    exists s. split; [by apply (candidates_subset unicode_lower synsets)|done].
  - destruct (candidates_of unicode_lower synsets word) as [|s rest] eqn:Hc; [done|].
    simpl in Hbest. injection Hbest as <-. exists s.
    assert (s ∈ candidates_of unicode_lower synsets word) as Hs
      by (rewrite Hc; apply list_elem_of_here).
    split; [by apply (candidates_subset unicode_lower synsets)|].
    split; [|done]. by rewrite <- Hc.
Qed.

(** X10: a definition that begins with one of the listed prefixes is
    returned only when every preferred candidate begins with one; it is then
    the gloss of the first of them. *)
Theorem proper_result_without_alternative word defn :
  best_definition unicode_lower synsets word = Some defn →
  looks_proper unicode_lower defn = true →
  Forall (filtered_out unicode_lower) (candidates_of unicode_lower synsets word)
  ∧ ∃ s rest, candidates_of unicode_lower synsets word = s :: rest
              ∧ defn = definition s.
Proof.
  intros Hbest Hproper.
  assert (synsets word ≠ []) as Hsyns.
  { intros Hnil. unfold best_definition in Hbest. by rewrite Hnil in Hbest. }
  rewrite (best_definition_unfold _ _ _ Hsyns) in Hbest.
  destruct (List.find _ _) as [s|] eqn:Hfind.
  - injection Hbest as <-. apply find_elem_of in Hfind as [_ Hs].
    rewrite Hproper in Hs. done.
  - split.
    + apply Forall_forall. intros s Hs. apply looks_proper_spec.
      pose proof (List.find_none _ _ Hfind s (proj1 (list_elem_of_In _ _) Hs)) as Hneg.
      simpl in Hneg. by apply negb_false_iff in Hneg.
    + destruct (candidates_of unicode_lower synsets word) as [|s rest]; [done|].
      simpl in Hbest. injection Hbest as <-. by exists s, rest.
Qed.

(** X11: the first sense the database lists is the one defined whenever the
    word is among its own surface forms and its gloss begins with none of
    the prefixes. *)
Theorem first_sense_wins word s rest :
  synsets word = s :: rest →
  is_direct unicode_lower word s = true →
  ¬ filtered_out unicode_lower s →
  best_definition unicode_lower synsets word = Some (definition s).
Proof.
  intros Hsyns Hdirect Hclean.
  assert (synsets word ≠ []) as Hne by (by rewrite Hsyns).
  rewrite (best_definition_unfold _ _ _ Hne).
  unfold candidates_of. rewrite Hsyns. simpl. rewrite Hdirect. simpl.
  apply looks_proper_false in Hclean. by rewrite Hclean.
Qed.

End ResolverComposition.

(** ** More on the batch driver *)

Section DriverComposition.

Variable unicode_lower : pystr -> pystr.
Variable synsets : pystr -> list Synset.

#[local] Abbreviation lower := (str_lower unicode_lower).

#[global] Instance str_le_antisym : AntiSymm (=) str_le.
Proof.
  intros s t. rewrite !str_le_lt_eq. unfold str_lt.
  intros [Hst| ->] [Hts|Heq]; try done.
  apply str_ltb_asym in Hst. congruence.
Qed.

#[global] Instance item_le_antisym : AntiSymm (=) item_le.
Proof.
  intros [k1 v1] [k2 v2]. unfold item_le, item_leb. simpl.
  rewrite !orb_true_iff, !andb_true_iff, !bool_decide_eq_true.
  intros [H12|[-> Hv12]] [H21|[Heq Hv21]].
  - apply str_ltb_asym in H12. congruence.
  - subst. by rewrite str_ltb_irrefl in H12.
  - by rewrite str_ltb_irrefl in H21.
  - f_equal. by apply (anti_symm str_le).
Qed.

Lemma sorted_words_strict (pool : gset pystr) :
  StronglySorted str_lt (sorted_words pool).
Proof.
  apply strongly_sorted_strict; [|apply sorted_words_nodup].
  apply StronglySorted_merge_sort; apply _.
Qed.

(** X12: the order in which the set hands out its words does not matter:
    sorting any enumeration of the pool gives the list the loop runs over,
    which holds each pool word once, in strictly ascending order. *)
Theorem words_sorted_any_order (pool : gset pystr) (l : list pystr) :
  NoDup l → (∀ w, w ∈ l ↔ w ∈ pool) →
  merge_sort str_le l = sorted_words pool
  ∧ StronglySorted str_lt (sorted_words pool)
  ∧ ∀ w, w ∈ sorted_words pool ↔ w ∈ pool.
Proof.
  intros Hnodup Hsame. split; [|split].
  - apply (Sorted_unique str_le).
    + apply Sorted_merge_sort; apply _.
    + apply Sorted_merge_sort; apply _.
    + rewrite merge_sort_Permutation, sorted_words_perm.
      apply NoDup_Permutation; [done|apply NoDup_elements|].
      intros w. rewrite Hsame. by rewrite elem_of_elements.
  - apply sorted_words_strict.
  - intros w. apply elem_of_sorted_words.
Qed.

Lemma hits_sorted (words : list pystr) :
  StronglySorted str_lt words →
  StronglySorted item_le (hits unicode_lower synsets words).
Proof.
  unfold hits. induction 1 as [|w words Hsorted IH Hall]; csimpl; [constructor|].
  destruct (resolved unicode_lower synsets w) as [defn|]; csimpl; [|done].
  constructor; [done|]. apply Forall_forall. intros [k v] Hkv.
  apply (elem_of_hits unicode_lower synsets) in Hkv as [Hk _].
  rewrite Forall_forall in Hall. specialize (Hall k Hk).
  unfold item_le, item_leb, str_lt in *. simpl. by rewrite Hall.
Qed.

(** X13: the loop fills [definitions] in ascending key order already: the
    sort of line 167 changes nothing, and the map written is the map the
    loop leaves. *)
Theorem final_sort_changes_nothing (pool : gset pystr) :
  run_ordered (run_main unicode_lower synsets pool)
  = run_definitions (run_main unicode_lower synsets pool).
Proof.
  destruct (run_ordered_spec unicode_lower synsets pool) as (-> & -> & _).
  unfold sorted_items. apply (StronglySorted_unique item_le).
  - apply StronglySorted_merge_sort; apply _.
  - apply hits_sorted, sorted_words_strict.
  - apply merge_sort_Permutation.
Qed.

(** X14: the closing report divides by the number of pool words: the run
    ends in a division by zero exactly when the pool is empty, after it has
    written the empty object. *)
Theorem report_fault_iff_empty_pool (pool : gset pystr) :
  (run_fault (run_main unicode_lower synsets pool) = Some ZeroDivisionError
   ↔ pool = ∅)
  ∧ (run_fault (run_main unicode_lower synsets pool) = None ↔ pool ≠ ∅)
  ∧ (pool = ∅ →
     run_written (run_main unicode_lower synsets pool) = py "{}" ++ [10%N]).
Proof.
  assert (length (sorted_words pool) = 0 ↔ pool = ∅) as Hlen.
  { rewrite sorted_words_perm, length_zero_iff_nil, elements_empty_iff.
    by unfold_leibniz. }
  unfold run_main. simpl. split; [|split].
  - destruct (decide (length (sorted_words pool) = 0)) as [H0|Hn].
    + split; [intros _; by apply Hlen|done].
    + split; [done|]. intros Hempty. by apply Hlen in Hempty.
  - destruct (decide (length (sorted_words pool) = 0)) as [H0|Hn].
    + split; [done|]. intros Hne. by apply Hlen in H0.
    + split; [|done]. intros _ Hempty. by apply Hlen in Hempty.
  - intros ->. reflexivity.
Qed.

End DriverComposition.

(** ** Reading back the text written *)

Section ReadBack.

Lemma unhex_hex_digit (n : N) : (n < 16)%N → unhex (hex_digit n) = Some n.
Proof.
  intros Hn. unfold hex_digit, unhex.
  destruct (N.ltb_spec n 10).
  - destruct (N.leb_spec 48 (48 + n)), (N.leb_spec (48 + n) 57); simpl;
      try lia. f_equal. lia.
  - destruct (N.leb_spec 48 (87 + n)), (N.leb_spec (87 + n) 57); simpl; try lia.
    destruct (N.leb_spec 97 (87 + n)), (N.leb_spec (87 + n) 102); simpl; try lia.
    f_equal. lia.
Qed.

Lemma scan_string_plain (c : N) (t : pystr) :
  c ≠ 34%N → c ≠ 92%N → (32 ≤ c)%N →
  scan_string (c :: t) = scanned c (scan_string t).
Proof.
  intros H34 H92 H32. simpl.
  destruct (N.eqb_spec c 34); [done|]. destruct (N.eqb_spec c 92); [done|].
  destruct (N.ltb_spec c 32); [lia|]. done.
Qed.

Lemma scan_string_hex (h3 h4 a b : N) (t : pystr) :
  unhex h3 = Some a → unhex h4 = Some b →
  scan_string ([92; 117; 48; 48; h3; h4]%N ++ t)
  = scanned (a * 16 + b)%N (scan_string t).
Proof.
  intros Ha Hb.
  change (scan_string ([92; 117; 48; 48; h3; h4]%N ++ t))
    with (match unhex h3, unhex h4 with
          | Some c', Some d => scanned (0 * 4096 + 0 * 256 + c' * 16 + d)%N (scan_string t)
          | _, _ => None
          end).
  rewrite Ha, Hb. done.
Qed.

Lemma scan_string_escape (c : N) (t : pystr) :
  scan_string (json_escape c ++ t) = scanned c (scan_string t).
Proof.
  unfold json_escape.
  destruct (N.eqb_spec c 34) as [->|H34]; [reflexivity|].
  destruct (N.eqb_spec c 92) as [->|H92]; [reflexivity|].
  destruct (N.eqb_spec c 8) as [->|H8]; [reflexivity|].
  destruct (N.eqb_spec c 12) as [->|H12]; [reflexivity|].
  destruct (N.eqb_spec c 10) as [->|H10]; [reflexivity|].
  destruct (N.eqb_spec c 13) as [->|H13]; [reflexivity|].
  destruct (N.eqb_spec c 9) as [->|H9]; [reflexivity|].
  destruct (N.ltb_spec c 32) as [Hlt|Hge].
  - rewrite (scan_string_hex _ _ (c / 16) (c mod 16)).
    + f_equal. rewrite N.mul_comm. symmetry. apply N.div_mod. lia.
    + apply unhex_hex_digit. apply N.Div0.div_lt_upper_bound. lia.
    + apply unhex_hex_digit. apply N.mod_lt. lia.
  - by apply scan_string_plain.
Qed.

Lemma scan_string_literal (s rest : pystr) :
  scan_string (flat_map json_escape s ++ 34%N :: rest) = Some (s, rest).
Proof.
  induction s as [|c s IH]; [reflexivity|].
  change (flat_map json_escape (c :: s))
    with (json_escape c ++ flat_map json_escape s).
  rewrite <- app_assoc, scan_string_escape, IH. done.
Qed.

Lemma scan_member_spec (kv : pystr * pystr) (rest : pystr) :
  scan_member (json_member kv ++ rest) = Some (kv, rest).
Proof.
  destruct kv as [k v]. unfold json_member, json_string. simpl.
  rewrite <- !app_assoc. simpl. rewrite scan_string_literal. simpl.
  rewrite <- !app_assoc. simpl. rewrite scan_string_literal. done.
Qed.

Lemma read_members_spec (d : pydict) (kv : pystr * pystr) (fuel : nat) :
  length d < fuel →
  read_members fuel (join [44%N] (json_member <$> kv :: d) ++ [125%N])
  = Some (kv :: d).
Proof.
  assert (∀ fuel' t,
            read_members (S fuel') t
            = match scan_member t with
              | Some (kv0, c :: rest) =>
                if (c =? 125)%N
                then match rest with [] => Some [kv0] | _ :: _ => None end
                else if (c =? 44)%N then cons kv0 <$> read_members fuel' rest
                else None
              | _ => None
              end) as Hstep by reflexivity.
  revert kv fuel. induction d as [|kv' d IH]; intros kv [|fuel] Hfuel; try (simpl in Hfuel; lia).
  - change (join [44%N] (json_member <$> [kv])) with (json_member kv).
    rewrite Hstep, scan_member_spec. done.
  - change (json_member <$> kv :: kv' :: d)
      with (json_member kv :: (json_member <$> kv' :: d)).
    change (join [44%N] (json_member kv :: (json_member <$> kv' :: d)))
      with (json_member kv ++ [44%N] ++ join [44%N] (json_member <$> kv' :: d)).
    rewrite <- !app_assoc, Hstep, scan_member_spec.
    change ([44%N] ++ ?t) with (44%N :: t).
    change ((44 =? 125)%N) with false. change ((44 =? 44)%N) with true.
    cbv iota. rewrite IH by (simpl in Hfuel; lia). done.
Qed.

Lemma join_members_length (d : pydict) :
  length d ≤ length (join [44%N] (json_member <$> d)).
Proof.
  induction d as [|[k v] d IH]; [done|].
  change (json_member <$> (k, v) :: d) with (json_member (k, v) :: (json_member <$> d)).
  destruct d as [|kv d].
  - simpl. lia.
  - change (join [44%N] (json_member (k, v) :: (json_member <$> kv :: d)))
      with (json_member (k, v) ++ [44%N] ++ join [44%N] (json_member <$> kv :: d)).
    rewrite !length_app. simpl in *. lia.
Qed.

Lemma read_object_dumps (d : pydict) : read_object (json_dumps d) = Some d.
Proof.
  destruct d as [|kv d]; [reflexivity|].
  unfold json_dumps.
  pose proof (read_members_spec d kv) as Hread.
  pose proof (join_members_length (kv :: d)) as Hlen.
  destruct (join [44%N] (json_member <$> kv :: d) ++ [125%N]) as [|c [|c2 t]] eqn:Ht.
  - apply (f_equal length) in Ht. rewrite length_app in Ht. simpl in Ht. lia.
  - apply (f_equal length) in Ht. rewrite length_app in Ht. simpl in *. lia.
  - change (read_object ([123%N] ++ c :: c2 :: t))
      with (read_members (length (c :: c2 :: t)) (c :: c2 :: t)).
    apply Hread. apply (f_equal length) in Ht. rewrite length_app in Ht.
    simpl in *. lia.
Qed.

(** X15: nothing is lost in the text written: two definition maps that are
    written as the same text are the same map, entry by entry and in the
    same order. *)
Theorem json_dumps_injective (d1 d2 : pydict) :
  json_dumps d1 = json_dumps d2 → d1 = d2.
Proof.
  intros Heq. pose proof (read_object_dumps d1) as H1.
  rewrite Heq, read_object_dumps in H1. by injection H1.
Qed.

End ReadBack.

(** ** From the files to the entries written *)

Section EndToEnd.

Variable unicode_upper : pystr -> pystr.
Variable unicode_lower : pystr -> pystr.
Variable parse_valid_words : pystr -> option ValidWords.
Variable parse_level_words : pystr -> option LevelWords.
Variable synsets : pystr -> list Synset.

(** X16: when [main] writes its output, the two files have loaded, and the
    entries written are exactly these: the key is the upper-case form of a
    word of bucket "4", "5" or "6" of the valid list and of no level word,
    and the value is the definition resolved for its lower-case form, which
    is not empty. *)
Theorem main_entries valid_file level_file r :
  main unicode_upper unicode_lower parse_valid_words parse_level_words synsets
       valid_file level_file = Ok r →
  ∃ valid_text level_text valid_root level_root,
    read_text Utf8 valid_file = Ok valid_text
    ∧ json_loads parse_valid_words valid_text = Ok valid_root
    ∧ read_text Utf8Sig level_file = Ok level_text
    ∧ json_loads parse_level_words level_text = Ok level_root
    ∧ run_written r = json_dumps (run_ordered r) ++ [10%N]
    ∧ ∀ k v, (k, v) ∈ run_ordered r
             ↔ from_valid unicode_upper valid_root k
               ∧ ¬ from_level unicode_upper level_root k
               ∧ best_definition unicode_lower synsets (str_lower unicode_lower k)
                 = Some v
               ∧ v ≠ [].
Proof.
  unfold main, build_daily_pool.
  destruct (read_text Utf8 valid_file) as [valid_text|] eqn:Hvt; simpl; [|done].
  destruct (json_loads parse_valid_words valid_text) as [valid_root|] eqn:Hvr;
    simpl; [|done].
  destruct (read_text Utf8Sig level_file) as [level_text|] eqn:Hlt; simpl; [|done].
  destruct (json_loads parse_level_words level_text) as [level_root|] eqn:Hlr;
    simpl; [|done].
  intros [= <-]. exists valid_text, level_text, valid_root, level_root.
  repeat (split; [done|]).
  intros k v. rewrite elem_of_run_ordered, resolved_some, elem_of_pool_of. tauto.
Qed.

Lemma ascii_lower_upper (w : pystr) :
  is_ascii w = true →
  str_lower unicode_lower (str_upper unicode_upper w) = str_lower unicode_lower w.
Proof.
  intros Hw. destruct (ascii_upper_map_fixed w Hw) as (Hupper & _ & _).
  unfold str_upper, str_lower. rewrite Hw, Hupper.
  clear. induction w as [|c w IH]; simpl; [done|]. f_equal; [|done].
  unfold ascii_lower, ascii_upper.
  destruct (N.leb_spec 97 c), (N.leb_spec c 122); simpl;
    repeat match goal with
           | |- context [N.leb ?a ?b] => destruct (N.leb_spec a b); simpl
           end; lia.
Qed.

(** X19: however an ASCII word is spelled in the valid list, it is written
    under its upper-case form with the definition resolved for its
    lower-case form. *)
Theorem listed_word_looked_up_in_lowercase (pool : gset pystr) (w : pystr) :
  is_ascii w = true →
  str_upper unicode_upper w ∈ pool →
  ∀ v, (str_upper unicode_upper w, v) ∈ run_ordered (run_main unicode_lower synsets pool)
       ↔ best_definition unicode_lower synsets (str_lower unicode_lower w) = Some v
         ∧ v ≠ [].
Proof.
  intros Hw Hin v.
  rewrite elem_of_run_ordered, resolved_some, (ascii_lower_upper w Hw).
  split; [by intros [_ ?]|by intros ?].
Qed.

Lemma enumerate1_snoc {A} (l : list A) (x : A) :
  enumerate1 (l ++ [x]) = enumerate1 l ++ [(S (length l), x)].
Proof.
  unfold enumerate1. rewrite length_app. simpl.
  rewrite Nat.add_1_r, seq_S. simpl.
  rewrite zip_with_app by (by rewrite length_seq). done.
Qed.

Lemma main_loop_logged_spec (total : nat) (words : list pystr) :
  let acc := foldl (logged_body unicode_lower synsets total) (([], 0), [])
                   (enumerate1 words) in
  acc.1 = main_loop unicode_lower synsets words
  ∧ acc.2 = (fun i => {| progress_i := i;
                         progress_total := total;
                         progress_coverage :=
                           length (main_loop unicode_lower synsets
                                             (take (i - 1) words)).1 |})
            <$> List.filter (fun i => progress_due i total) (seq 1 (length words)).
Proof.
  induction words as [|w words IH] using rev_ind; [done|].
  simpl in *. rewrite enumerate1_snoc, foldl_app.
  destruct IH as [IHst IHlog].
  remember (foldl (logged_body unicode_lower synsets total) (([], 0), [])
                  (enumerate1 words)) as acc.
  change (foldl (logged_body unicode_lower synsets total) acc [(S (length words), w)])
    with (loop_body unicode_lower synsets acc.1 w,
          if progress_due (S (length words)) total
          then acc.2 ++ [ {| progress_i := S (length words);
                             progress_total := total;
                             progress_coverage := length acc.1.1 |} ]
          else acc.2).
  cbn [fst snd]. rewrite IHst. split.
  - unfold main_loop. by rewrite foldl_app.
  - rewrite length_app.
    change (length [w]) with 1. rewrite Nat.add_1_r, seq_S, List.filter_app, fmap_app.
    assert ((fun i => {| progress_i := i; progress_total := total;
                         progress_coverage :=
                           length (main_loop unicode_lower synsets
                                             (take (i - 1) (words ++ [w]))).1 |})
              <$> List.filter (fun i => progress_due i total) (seq 1 (length words))
            = (fun i => {| progress_i := i; progress_total := total;
                           progress_coverage :=
                             length (main_loop unicode_lower synsets
                                               (take (i - 1) words)).1 |})
              <$> List.filter (fun i => progress_due i total) (seq 1 (length words)))
      as ->.
    { apply list_fmap_ext. intros j i Hi. apply list_elem_of_lookup_2 in Hi.
      apply list_elem_of_In, filter_In in Hi as [Hi _]. apply in_seq in Hi.
      rewrite take_app_le by lia. done. }
    rewrite <- IHlog.
    change (1 + length words) with (S (length words)).
    cbn [List.filter].
    destruct (progress_due (S (length words)) total); [|by rewrite app_nil_r].
    cbn [fmap list_fmap]. rewrite Nat.sub_succ, Nat.sub_0_r, take_app_length. done.
Qed.

(** X20: before it handles the word at position [i] the loop prints a
    message when [i] is a multiple of 1000 or the last position, and at no
    other; the coverage it prints is the number of entries after the first
    [i - 1] words, so the message for the last word leaves that word out.
    The messages do not change what the loop computes. *)
Theorem progress_messages (words : list pystr) :
  let total := length words in
  let report i :=
    {| progress_i := i;
       progress_total := total;
       progress_coverage :=
         length (main_loop unicode_lower synsets (take (i - 1) words)).1 |} in
  (main_loop_logged unicode_lower synsets words).1
    = main_loop unicode_lower synsets words
  ∧ (main_loop_logged unicode_lower synsets words).2
    = report <$> List.filter (fun i => progress_due i total) (seq 1 total)
  ∧ (words ≠ [] →
     last (main_loop_logged unicode_lower synsets words).2 = Some (report total)).
Proof.
  intros total report.
  destruct (main_loop_logged_spec total words) as [Hst Hlog].
  split; [exact Hst|]. split; [exact Hlog|].
  intros Hne. unfold main_loop_logged. fold total. simpl in Hlog. rewrite Hlog.
  subst total report.
  assert (∃ n, length words = S n) as [n Hn].
  { destruct words; [done|]. simpl. eauto. }
  replace (seq 1 (length words)) with (seq 1 n ++ [S n])
    by (by rewrite Hn, seq_S).
  rewrite List.filter_app. cbn [List.filter].
  assert (progress_due (S n) (length words) = true) as ->.
  { unfold progress_due. rewrite Hn, Nat.eqb_refl. apply orb_true_r. }
  rewrite fmap_app. cbn [fmap list_fmap]. rewrite last_snoc. by rewrite Hn.
Qed.

End EndToEnd.

(** ** The added properties on the sample data *)

Lemma seven_not_target : py "7" ∉ target_lengths.
Proof.
  intros Hin. repeat (apply elem_of_cons in Hin as [Heq|Hin]; [discriminate Heq|]).
  by apply elem_of_nil in Hin.
Defined.

Lemma other_buckets_ignored_witness :
  (py "7" ∉ target_lengths)
  ∧ pool_of no_table (<[py "7" := [py "JOURNEY"]]> sample_valid) sample_level
    = pool_of no_table sample_valid sample_level.
Proof.
  split; [exact seven_not_target|].
  exact (proj1 (other_buckets_ignored no_table sample_valid sample_level
                  (py "7") [py "JOURNEY"] seven_not_target)).
Defined.

Lemma four_is_target : py "4" ∈ target_lengths.
Proof. in_list. Defined.

Lemma valid_word_adds_word_witness :
  py "4" ∈ target_lengths
  ∧ pool_of no_table (<[py "4" := dict_get_list sample_valid (py "4") ++ [py "moon"]]>
                        sample_valid) sample_level
    = if decide (str_upper no_table (py "moon") ∈ excluded_of no_table sample_level)
      then pool_of no_table sample_valid sample_level
      else pool_of no_table sample_valid sample_level ∪ {[ str_upper no_table (py "moon") ]}.
Proof.
  split; [exact four_is_target|].
  exact (valid_word_adds_word no_table sample_valid sample_level (py "4") (py "moon")
           four_is_target).
Defined.

Lemma exclusion_ignores_case_witness :
  sample_level !! py "4"
  = Some [ {| entry_word := py "glow";
              entry_definition := py "to shine with a steady light" |} ]
  ∧ str_lower no_table (py "Glow") = str_lower no_table (py "glow")
  ∧ str_upper no_table (py "Glow") ∉ pool_of no_table sample_valid sample_level.
Proof.
  assert (sample_level !! py "4"
          = Some [ {| entry_word := py "glow";
                      entry_definition := py "to shine with a steady light" |} ])
    as Hlook by apply lookup_singleton_eq.
  split; [exact Hlook|]. split; [reflexivity|].
  apply (exclusion_ignores_case no_table no_table sample_valid sample_level (py "4") _
           {| entry_word := py "glow";
              entry_definition := py "to shine with a steady light" |} (py "Glow") Hlook).
  - in_list.
  - reflexivity.
  - reflexivity.
  - reflexivity.
Defined.



Lemma twain_best :
  best_definition no_table sample_synsets (py "twain")
  = Some (py "two items of the same kind").
Proof. reflexivity. Defined.

Lemma best_definition_is_a_sense_witness :
  best_definition no_table sample_synsets (py "twain")
  = Some (py "two items of the same kind")
  ∧ ∃ s, s ∈ sample_synsets (py "twain")
         ∧ s ∈ candidates_of no_table sample_synsets (py "twain")
         ∧ definition s = py "two items of the same kind".
Proof.
  split; [exact twain_best|].
  exact (best_definition_is_a_sense no_table sample_synsets (py "twain") _ twain_best).
Defined.

Lemma celt_best :
  best_definition no_table sample_synsets (py "celt") = Some (definition celt_noun).
Proof. reflexivity. Defined.

Lemma proper_result_without_alternative_witness :
  best_definition no_table sample_synsets (py "celt") = Some (definition celt_noun)
  ∧ looks_proper no_table (definition celt_noun) = true
  ∧ Forall (filtered_out no_table) (candidates_of no_table sample_synsets (py "celt")).
Proof.
  split; [exact celt_best|]. split; [reflexivity|].
  exact (proj1 (proper_result_without_alternative no_table sample_synsets (py "celt")
                  (definition celt_noun) celt_best eq_refl)).
Defined.

Lemma care_not_filtered :
  ¬ filtered_out no_table {| lemma_names := [py "care"; py "attention"];
                             definition := py "feel concern or interest" |}.
Proof. apply looks_proper_false. reflexivity. Defined.

Lemma first_sense_wins_witness :
  sample_synsets (py "care")
  = [ {| lemma_names := [py "care"; py "attention"];
         definition := py "feel concern or interest" |} ]
  ∧ best_definition no_table sample_synsets (py "care")
    = Some (py "feel concern or interest").
Proof.
  split; [reflexivity|].
  exact (first_sense_wins no_table sample_synsets (py "care") _ [] eq_refl eq_refl
           care_not_filtered).
Defined.

Lemma glow_care_nodup : NoDup [py "GLOW"; py "CARE"].
Proof.
  apply NoDup_cons. split.
  - intros Hin. apply list_elem_of_singleton in Hin. discriminate Hin.
  - apply NoDup_singleton.
Defined.

Lemma glow_care_pool w :
  w ∈ [py "GLOW"; py "CARE"] ↔ w ∈ ({[ py "CARE" ]} ∪ {[ py "GLOW" ]} : gset pystr).
Proof.
  rewrite elem_of_union, !elem_of_singleton, elem_of_cons, list_elem_of_singleton.
  tauto.
Defined.

Lemma words_sorted_any_order_witness :
  NoDup [py "GLOW"; py "CARE"]
  ∧ merge_sort str_le [py "GLOW"; py "CARE"]
    = sorted_words ({[ py "CARE" ]} ∪ {[ py "GLOW" ]}).
Proof.
  split; [exact glow_care_nodup|].
  exact (proj1 (words_sorted_any_order _ [py "GLOW"; py "CARE"]
                  glow_care_nodup glow_care_pool)).
Defined.

Lemma json_dumps_injective_witness :
  json_dumps (dict_setitem [] (py "CARE") (py "feel concern or interest"))
  = json_dumps [(py "CARE", py "feel concern or interest")]
  ∧ dict_setitem [] (py "CARE") (py "feel concern or interest")
    = [(py "CARE", py "feel concern or interest")].
Proof.
  split; [reflexivity|].
  exact (json_dumps_injective _ _ eq_refl).
Defined.

Lemma sample_main :
  main no_table no_table sample_parse_valid sample_parse_level sample_synsets
       (Some sample_valid_file) (Some sample_level_file)
  = Ok (run_main no_table sample_synsets (pool_of no_table sample_valid sample_level)).
Proof.
  apply main_run.
  apply (build_daily_pool_loaded no_table sample_parse_valid sample_parse_level
           (Some sample_valid_file) (Some sample_level_file)
           sample_valid_text sample_level_text sample_valid sample_level);
    vm_compute; reflexivity.
Defined.

Lemma main_entries_witness :
  main no_table no_table sample_parse_valid sample_parse_level sample_synsets
       (Some sample_valid_file) (Some sample_level_file)
  = Ok (run_main no_table sample_synsets (pool_of no_table sample_valid sample_level))
  ∧ ∃ valid_text level_text valid_root level_root,
      read_text Utf8 (Some sample_valid_file) = Ok valid_text
      ∧ json_loads sample_parse_valid valid_text = Ok valid_root
      ∧ read_text Utf8Sig (Some sample_level_file) = Ok level_text
      ∧ json_loads sample_parse_level level_text = Ok level_root
      ∧ run_written (run_main no_table sample_synsets
                              (pool_of no_table sample_valid sample_level))
        = json_dumps (run_ordered (run_main no_table sample_synsets
                                            (pool_of no_table sample_valid sample_level)))
          ++ [10%N]
      ∧ ∀ k v, (k, v) ∈ run_ordered (run_main no_table sample_synsets
                                              (pool_of no_table sample_valid sample_level))
               ↔ from_valid no_table valid_root k
                 ∧ ¬ from_level no_table level_root k
                 ∧ best_definition no_table sample_synsets (str_lower no_table k) = Some v
                 ∧ v ≠ [].
Proof.
  split; [exact sample_main|].
  exact (main_entries no_table no_table sample_parse_valid sample_parse_level
           sample_synsets (Some sample_valid_file) (Some sample_level_file) _ sample_main).
Defined.

Lemma care_in_care_pool : str_upper no_table (py "Care") ∈ ({[ py "CARE" ]} : gset pystr).
Proof. apply elem_of_singleton. reflexivity. Defined.

Lemma listed_word_looked_up_in_lowercase_witness :
  is_ascii (py "Care") = true
  ∧ str_upper no_table (py "Care") ∈ ({[ py "CARE" ]} : gset pystr)
  ∧ ((str_upper no_table (py "Care"), py "feel concern or interest")
       ∈ run_ordered (run_main no_table sample_synsets {[ py "CARE" ]})
     ↔ best_definition no_table sample_synsets (str_lower no_table (py "Care"))
       = Some (py "feel concern or interest")
       ∧ py "feel concern or interest" ≠ []).
Proof.
  split; [reflexivity|]. split; [exact care_in_care_pool|].
  exact (listed_word_looked_up_in_lowercase no_table no_table sample_synsets
           {[ py "CARE" ]} (py "Care") eq_refl care_in_care_pool
           (py "feel concern or interest")).
Defined.

(** The sample files, from the bytes to the text written. *)
Example sample_main_written :
  run_written <$> (match main no_table no_table sample_parse_valid sample_parse_level
                               sample_synsets (Some sample_valid_file)
                               (Some sample_level_file) with
                   | Ok r => Some r
                   | Raise _ => None
                   end)
  = Some ([123; 34]%N ++ py "CARE" ++ [34; 58; 34]%N ++ py "feel concern or interest"
          ++ [34; 125; 10]%N).
Proof. vm_compute. reflexivity. Qed.

(** Three words, the second without a definition: one message, for the
    last word, which reports the one entry found before it. *)
Example sample_progress :
  (main_loop_logged no_table sample_synsets [py "CARE"; py "GLOW"; py "TWAIN"]).2
  = [ {| progress_i := 3; progress_total := 3; progress_coverage := 1 |} ].
Proof. vm_compute. reflexivity. Qed.

(** ** The pool builder on values of any shape *)

Section JsonProperties.

Variable unicode_upper : pystr -> pystr.
Variable parse_json : pystr -> option json.

#[local] Abbreviation upper := (str_upper unicode_upper).

#[local] Abbreviation add_entry :=
  (fun (excluded : gset pystr) (obj : json) =>
     w <- py_getitem obj (py "word") ;;
     u <- py_upper unicode_upper w ;;
     Ok (excluded ∪ {[ u ]})).

#[local] Abbreviation add_bucket :=
  (fun (excluded : gset pystr) (items : json) =>
     objs <- py_iter items ;;
     for_each add_entry excluded objs).

Lemma level_entries_run (objs : list json) (excluded : gset pystr) :
  match for_each add_entry excluded objs with
  | Ok X =>
    forallb has_word objs = true
    ∧ ∀ u, u ∈ X ↔ u ∈ excluded
                   ∨ ∃ entry w, JObject entry ∈ objs
                                ∧ dict_find (py "word") entry = Some (JString w)
                                ∧ u = upper w
  | Raise e => forallb has_word objs = false ∧ shape_fault e
  end.
Proof.
  unfold shape_fault.
  revert excluded. induction objs as [|obj objs IH]; intros excluded.
  - simpl. split; [done|]. intros u. split; [auto|].
    intros [?|(entry & w & Hin & _)]; [done|]. by apply elem_of_nil in Hin.
  - change (for_each add_entry excluded (obj :: objs))
      with (s' <- add_entry excluded obj ;; for_each add_entry s' objs).
    destruct obj as [|b|n|s|xs|members]; try (simpl; auto).
    cbn [py_getitem has_word forallb bind].
    destruct (dict_find (py "word") members) as [v|] eqn:Hfind;
      [|cbn [bind]; auto].
    destruct v as [|b|n|w|xs|ms]; try (cbn [bind py_upper andb]; auto).
    cbn [bind py_upper andb].
    specialize (IH (excluded ∪ {[ upper w ]})).
    destruct (for_each add_entry (excluded ∪ {[ upper w ]}) objs) as [X|e].
    + destruct IH as [Hall HX]. split; [done|]. intros u.
      rewrite HX, elem_of_union, elem_of_singleton. split.
      * intros [[?| ->]|(entry & w' & Hin & Hw & ->)]; [auto|right..].
        -- exists members, w. split; [apply list_elem_of_here|done].
        -- exists entry, w'. split; [by apply list_elem_of_further|done].
      * intros [?|(entry & w' & Hin & Hw & ->)]; [auto|].
        apply elem_of_cons in Hin as [Heq|Hin].
        -- injection Heq as ->. rewrite Hfind in Hw. injection Hw as ->. auto.
        -- right. eauto.
    + done.
Qed.

Lemma level_buckets_run (buckets : list json) (excluded : gset pystr) :
  match for_each add_bucket excluded buckets with
  | Ok X =>
    forallb (fun items => match py_iter items with
                          | Ok objs => forallb has_word objs
                          | Raise _ => false
                          end) buckets = true
    ∧ ∀ u, u ∈ X ↔ u ∈ excluded
                   ∨ ∃ items objs entry w,
                       items ∈ buckets ∧ py_iter items = Ok objs
                       ∧ JObject entry ∈ objs
                       ∧ dict_find (py "word") entry = Some (JString w)
                       ∧ u = upper w
  | Raise e =>
    forallb (fun items => match py_iter items with
                          | Ok objs => forallb has_word objs
                          | Raise _ => false
                          end) buckets = false
    ∧ shape_fault e
  end.
Proof.
  revert excluded. induction buckets as [|items buckets IH]; intros excluded.
  - simpl. split; [done|]. intros u. split; [auto|].
    intros [?|(items & objs & entry & w & Hin & _)]; [done|].
    by apply elem_of_nil in Hin.
  - change (for_each add_bucket excluded (items :: buckets))
      with (s' <- add_bucket excluded items ;; for_each add_bucket s' buckets).
    cbn [forallb].
    destruct (py_iter items) as [objs|e] eqn:Hiter; cbn [bind].
    + pose proof (level_entries_run objs excluded) as Hentries.
      destruct (for_each add_entry excluded objs) as [X|e]; cbn [bind].
      * destruct Hentries as [Hall HX]. rewrite Hall. cbn [andb].
        specialize (IH X).
        destruct (for_each add_bucket X buckets) as [Y|e]; [|done].
        destruct IH as [Hrest HY]. split; [done|]. intros u. rewrite HY, HX. split.
        -- intros [[?|(entry & w & Hin & Hw & ->)]
                   |(its & objs' & entry & w & Hin & Hit & Hentry & Hw & ->)];
             [auto|right..].
           ++ exists items, objs, entry, w. split; [apply list_elem_of_here|done].
           ++ exists its, objs', entry, w. split; [by apply list_elem_of_further|done].
        -- intros [?|(its & objs' & entry & w & Hin & Hit & Hentry & Hw & ->)]; [auto|].
           apply elem_of_cons in Hin as [->|Hin].
           ++ rewrite Hiter in Hit. injection Hit as <-. left. right. eauto.
           ++ right. eauto 10.
      * destruct Hentries as [Hall He]. rewrite Hall. done.
    + split; [done|]. destruct items; simpl in Hiter; try done;
        injection Hiter as <-; unfold shape_fault; auto.
Qed.

Lemma excluded_json_run (level_root : json) :
  match excluded_json unicode_upper level_root with
  | Ok X =>
    level_ok level_root = true
    ∧ ∀ u, u ∈ X ↔ from_level_json unicode_upper level_root u
  | Raise e => level_ok level_root = false ∧ shape_fault e
  end.
Proof.
  unfold excluded_json, level_ok, from_level_json.
  destruct level_root as [|b|n|s|xs|members];
    try (simpl; split; [done|unfold shape_fault; auto]).
  cbn [py_values bind].
  pose proof (level_buckets_run members.*2 ∅) as Hrun.
  destruct (for_each add_bucket ∅ members.*2) as [X|e]; [|done].
  destruct Hrun as [Hall HX]. split; [done|]. intros u. rewrite HX. split.
  - intros [Hemp|(items & objs & entry & w & Hin & Hit & Hentry & Hw & ->)];
      [by apply not_elem_of_empty in Hemp|].
    exists members, items, objs, entry, w. done.
  - intros (ms & items & objs & entry & w & [= <-] & Hin & Hit & Hentry & Hw & ->).
    right. eauto 10.
Qed.

#[local] Abbreviation add_word excluded :=
  (fun (pool : gset pystr) (w : json) =>
     uw <- py_upper unicode_upper w ;;
     Ok (if decide (uw ∉ excluded) then pool ∪ {[ uw ]} else pool)).

#[local] Abbreviation add_length excluded valid_root :=
  (fun (pool : gset pystr) (length : pystr) =>
     arr <- py_get valid_root length (JArray []) ;;
     ws <- py_iter arr ;;
     for_each (add_word excluded) pool ws).

Lemma valid_words_run (excluded : gset pystr) (ws : list json) (pool : gset pystr) :
  match for_each (add_word excluded) pool ws with
  | Ok P =>
    forallb is_string ws = true
    ∧ ∀ u, u ∈ P ↔ u ∈ pool
                   ∨ ((u ∉ excluded) ∧ ∃ s, JString s ∈ ws ∧ u = upper s)
  | Raise e => forallb is_string ws = false ∧ shape_fault e
  end.
Proof.
  unfold shape_fault.
  revert pool. induction ws as [|w ws IH]; intros pool.
  - simpl. split; [done|]. intros u. split; [auto|].
    intros [?|(_ & s & Hin & _)]; [done|]. by apply elem_of_nil in Hin.
  - change (for_each (add_word excluded) pool (w :: ws))
      with (s' <- add_word excluded pool w ;; for_each (add_word excluded) s' ws).
    destruct w as [|b|n|s|xs|members]; try (simpl; auto).
    cbn [py_upper bind forallb is_string andb].
    set (pool' := if decide (upper s ∉ excluded) then pool ∪ {[ upper s ]} else pool).
    specialize (IH pool').
    destruct (for_each (add_word excluded) pool' ws) as [P|e]; [|done].
    destruct IH as [Hall HP]. split; [done|]. intros u. rewrite HP.
    unfold pool'. destruct (decide (upper s ∉ excluded)) as [Hnot|Hin].
    + rewrite elem_of_union, elem_of_singleton. split.
      * intros [[?| ->]|(Hu & s' & Hs' & ->)]; [auto|right..].
        -- split; [done|]. exists s. split; [apply list_elem_of_here|done].
        -- split; [done|]. exists s'. split; [by apply list_elem_of_further|done].
      * intros [?|(Hu & s' & Hs' & ->)]; [auto|].
        apply elem_of_cons in Hs' as [Heq|Hs'].
        -- injection Heq as ->. auto.
        -- right. eauto.
    + split.
      * intros [?|(Hu & s' & Hs' & ->)]; [auto|right].
        split; [done|]. exists s'. split; [by apply list_elem_of_further|done].
      * intros [?|(Hu & s' & Hs' & ->)]; [auto|].
        apply elem_of_cons in Hs' as [Heq|Hs'].
        -- injection Heq as ->. done.
        -- right. eauto.
Qed.

Lemma valid_lengths_run (excluded : gset pystr) (members : list (pystr * json))
    (ks : list pystr) (pool : gset pystr) :
  match for_each (add_length excluded (JObject members)) pool ks with
  | Ok P =>
    forallb (fun length =>
               match py_iter (default (JArray []) (dict_find length members)) with
               | Ok ws => forallb is_string ws
               | Raise _ => false
               end) ks = true
    ∧ ∀ u, u ∈ P ↔ u ∈ pool
                   ∨ ((u ∉ excluded)
                      ∧ ∃ k ws s, k ∈ ks
                          ∧ py_iter (default (JArray []) (dict_find k members)) = Ok ws
                          ∧ JString s ∈ ws ∧ u = upper s)
  | Raise e =>
    forallb (fun length =>
               match py_iter (default (JArray []) (dict_find length members)) with
               | Ok ws => forallb is_string ws
               | Raise _ => false
               end) ks = false
    ∧ shape_fault e
  end.
Proof.
  revert pool. induction ks as [|k ks IH]; intros pool.
  - simpl. split; [done|]. intros u. split; [auto|].
    intros [?|(_ & k & ws & s & Hin & _)]; [done|]. by apply elem_of_nil in Hin.
  - change (for_each (add_length excluded (JObject members)) pool (k :: ks))
      with (s' <- add_length excluded (JObject members) pool k ;;
            for_each (add_length excluded (JObject members)) s' ks).
    cbn [py_get bind forallb] in *.
    destruct (py_iter (default (JArray []) (dict_find k members))) as [ws|e] eqn:Hiter;
      cbn [bind].
    + pose proof (valid_words_run excluded ws pool) as Hwords.
      destruct (for_each (add_word excluded) pool ws) as [P|e]; cbn [bind].
      * destruct Hwords as [Hall HP]. rewrite Hall. cbn [andb].
        specialize (IH P).
        destruct (for_each _ P ks) as [Q|e]; [|done].
        destruct IH as [Hrest HQ]. split; [done|]. intros u. rewrite HQ, HP. split.
        -- intros [[?|(Hu & s & Hs & ->)]|(Hu & k' & ws' & s & Hk' & Hit & Hs & ->)];
             [auto|right; split; [done|]..].
           ++ exists k, ws, s. split; [apply list_elem_of_here|done].
           ++ exists k', ws', s. split; [by apply list_elem_of_further|done].
        -- intros [?|(Hu & k' & ws' & s & Hk' & Hit & Hs & ->)]; [auto|].
           apply elem_of_cons in Hk' as [->|Hk'].
           ++ rewrite Hiter in Hit. injection Hit as <-. left. right. eauto.
           ++ right. split; [done|]. eauto 10.
      * destruct Hwords as [Hall He]. rewrite Hall. done.
    + split; [done|].
      destruct (default (JArray []) (dict_find k members)); simpl in Hiter; try done;
        injection Hiter as <-; unfold shape_fault; auto.
Qed.

(** A run of the loops either returns the pool, on values of a shape they
    accept, or raises one of the three faults, on values of another. *)
Lemma pool_json_run (valid_root level_root : json) :
  match pool_json unicode_upper valid_root level_root with
  | Ok pool =>
    level_ok level_root = true ∧ valid_ok valid_root = true
    ∧ ∀ u, u ∈ pool ↔ from_valid_json unicode_upper valid_root u
                      ∧ ¬ from_level_json unicode_upper level_root u
  | Raise e =>
    (level_ok level_root = false ∨ valid_ok valid_root = false) ∧ shape_fault e
  end.
Proof.
  unfold pool_json.
  pose proof (excluded_json_run level_root) as Hlevel.
  destruct (excluded_json unicode_upper level_root) as [excluded|e]; cbn [bind];
    [|destruct Hlevel; auto].
  destruct Hlevel as [Hlevel Hexcluded].
  destruct valid_root as [|b|n|s|xs|members];
    try (simpl; split; [by right|unfold shape_fault; auto]).
  pose proof (valid_lengths_run excluded members target_lengths ∅) as Hvalid.
  destruct (for_each (add_length excluded (JObject members)) ∅ target_lengths) as [P|e].
  - destruct Hvalid as [Hall HP]. split; [done|]. split; [done|].
    intros u. rewrite HP, <- Hexcluded. unfold from_valid_json. split.
    + intros [Hemp|(Hu & k & ws & s & Hk & Hit & Hs & ->)];
        [by apply not_elem_of_empty in Hemp|].
      split; [|done]. exists members, k, ws, s. done.
    + intros [(ms & k & ws & s & [= <-] & Hk & Hit & Hs & ->) Hu].
      right. split; [done|]. eauto 10.
  - destruct Hvalid as [Hall He]. split; [by right|done].
Qed.

Lemma dict_find_encoded {A} (f : A → json) (m : gmap pystr A) (k : pystr) :
  dict_find k ((fun kv => (kv.1, f kv.2)) <$> map_to_list m) = f <$> m !! k.
Proof.
  unfold dict_find.
  assert (∀ l : list (pystr * A),
            match List.find (fun kv => bool_decide (kv.1 = k))
                            ((fun kv => (kv.1, f kv.2)) <$> l) with
            | Some kv => ∃ x, (k, x) ∈ l ∧ kv = (k, f x)
            | None => ∀ x, (k, x) ∉ l
            end) as Hfind.
  { induction l as [|[k' x] l IH]; simpl.
    - intros x Hin. by apply elem_of_nil in Hin.
    - destruct (bool_decide (k' = k)) eqn:Hk.
      + apply bool_decide_eq_true in Hk as ->. exists x.
        split; [apply list_elem_of_here|done].
      + apply bool_decide_eq_false in Hk.
        destruct (List.find _ _) as [kv|].
        * destruct IH as (y & Hy & ->). exists y.
          split; [by apply list_elem_of_further|done].
        * intros y Hy. apply elem_of_cons in Hy as [[= ? ?]|Hy]; [done|].
          by apply (IH y). }
  specialize (Hfind (map_to_list m)).
  destruct (List.find _ _) as [kv|].
  - destruct Hfind as (x & Hx & ->). apply elem_of_map_to_list in Hx.
    by rewrite Hx.
  - destruct (m !! k) as [x|] eqn:Hx; [|done].
    apply elem_of_map_to_list in Hx. by destruct (Hfind x).
Qed.

Lemma level_json_ok (level_root : LevelWords) : level_ok (level_json level_root) = true.
Proof.
  unfold level_ok, level_json. apply forallb_forall. intros items Hin.
  apply list_elem_of_In, list_elem_of_fmap in Hin as ([k' j] & -> & Hin).
  apply list_elem_of_fmap in Hin as ([k its] & [= -> ->] & _).
  simpl. apply forallb_forall. intros obj Hobj.
  apply list_elem_of_In, list_elem_of_fmap in Hobj as (e & -> & _). done.
Qed.

Lemma valid_json_bucket (valid_root : ValidWords) (k : pystr) :
  py_iter (default (JArray [])
             (dict_find k ((fun kv => (kv.1, JArray (JString <$> kv.2)))
                             <$> map_to_list valid_root)))
  = Ok (JString <$> default [] (valid_root !! k)).
Proof.
  rewrite (dict_find_encoded (fun ws => JArray (JString <$> ws))).
  by destruct (valid_root !! k).
Qed.

Lemma valid_json_ok (valid_root : ValidWords) : valid_ok (valid_json valid_root) = true.
Proof.
  unfold valid_ok, valid_json. apply forallb_forall. intros k _.
  rewrite valid_json_bucket. apply forallb_forall. intros w Hw.
  apply list_elem_of_In, list_elem_of_fmap in Hw as (s & -> & _). done.
Qed.

Lemma from_valid_json_typed (valid_root : ValidWords) u :
  from_valid_json unicode_upper (valid_json valid_root) u
  ↔ from_valid unicode_upper valid_root u.
Proof.
  unfold from_valid_json, from_valid, valid_json. split.
  - intros (members & k & ws & s & [= <-] & Hk & Hit & Hs & ->).
    rewrite valid_json_bucket in Hit. injection Hit as <-.
    apply list_elem_of_fmap in Hs as (s' & [= ->] & Hs').
    destruct (valid_root !! k) as [l|] eqn:Hl; simpl in Hs';
      [|by apply elem_of_nil in Hs'].
    exists k, l, s'. done.
  - intros (k & l & w & Hk & Hl & Hw & ->).
    eexists _, k, _, w. split; [done|]. split; [done|].
    split; [apply valid_json_bucket|]. split; [|done].
    rewrite Hl. simpl. apply list_elem_of_fmap. eauto.
Qed.

Lemma from_level_json_typed (level_root : LevelWords) u :
  from_level_json unicode_upper (level_json level_root) u
  ↔ from_level unicode_upper level_root u.
Proof.
  unfold from_level_json, from_level, level_json. split.
  - intros (members & items & objs & entry & w & [= <-] & Hin & Hit & Hentry & Hw & ->).
    apply list_elem_of_fmap in Hin as ([k' j] & -> & Hin).
    apply list_elem_of_fmap in Hin as ([k its] & [= -> ->] & Hin).
    apply elem_of_map_to_list in Hin. simpl in Hit. injection Hit as <-.
    apply list_elem_of_fmap in Hentry as (e & [= ->] & He).
    simpl in Hw. injection Hw as <-. exists k, its, e. done.
  - intros (k & its & e & Hlook & He & ->).
    eexists _, (JArray (entry_json <$> its)), (entry_json <$> its), _, (entry_word e).
    split; [done|]. split.
    { apply list_elem_of_fmap. exists (k, JArray (entry_json <$> its)). split; [done|].
      apply list_elem_of_fmap. exists (k, its). split; [done|].
      by apply elem_of_map_to_list. }
    split; [done|]. split.
    { apply list_elem_of_fmap. exists e. split; [reflexivity|done]. }
    done.
Qed.

(** On the two lists of the documented shape the loops raise nothing and
    return the pool of the lists. *)
Lemma pool_json_typed (valid_root : ValidWords) (level_root : LevelWords) :
  pool_json unicode_upper (valid_json valid_root) (level_json level_root)
  = Ok (pool_of unicode_upper valid_root level_root).
Proof.
  pose proof (pool_json_run (valid_json valid_root) (level_json level_root)) as Hrun.
  destruct (pool_json _ _ _) as [pool|e].
  - destruct Hrun as (_ & _ & Hpool). f_equal. apply set_eq. intros u.
    rewrite Hpool, from_valid_json_typed, from_level_json_typed, elem_of_pool_of. done.
  - destruct Hrun as [[Hl|Hv] _].
    + by rewrite level_json_ok in Hl.
    + by rewrite valid_json_ok in Hv.
Qed.

(** X6: [build_daily_pool] returns a pool exactly when both files are there,
    decode, do not begin with U+FEFF once decoded, parse, and hold values of
    a shape the loops accept; the pool is then the upper-case strings the
    three buckets yield minus the upper-case words of the level entries.
    Once both files have loaded the only faults are [KeyError],
    [AttributeError] and [TypeError], and on lists of the documented shape
    the result is the pool of the lists. *)
Theorem build_daily_pool_json_ok_iff valid_file level_file :
  (∀ pool,
     build_daily_pool_json unicode_upper parse_json valid_file level_file = Ok pool
     ↔ ∃ valid_text level_text valid_root level_root,
         read_text Utf8 valid_file = Ok valid_text
         ∧ json_loads parse_json valid_text = Ok valid_root
         ∧ read_text Utf8Sig level_file = Ok level_text
         ∧ json_loads parse_json level_text = Ok level_root
         ∧ level_ok level_root = true ∧ valid_ok valid_root = true
         ∧ ∀ u, u ∈ pool ↔ from_valid_json unicode_upper valid_root u
                           ∧ ¬ from_level_json unicode_upper level_root u)
  ∧ (∀ valid_text level_text valid_root level_root e,
       read_text Utf8 valid_file = Ok valid_text →
       json_loads parse_json valid_text = Ok valid_root →
       read_text Utf8Sig level_file = Ok level_text →
       json_loads parse_json level_text = Ok level_root →
       build_daily_pool_json unicode_upper parse_json valid_file level_file = Raise e →
       shape_fault e ∧ (level_ok level_root = false ∨ valid_ok valid_root = false))
  ∧ (∀ valid_text level_text (valid_root : ValidWords) (level_root : LevelWords),
       read_text Utf8 valid_file = Ok valid_text →
       json_loads parse_json valid_text = Ok (valid_json valid_root) →
       read_text Utf8Sig level_file = Ok level_text →
       json_loads parse_json level_text = Ok (level_json level_root) →
       build_daily_pool_json unicode_upper parse_json valid_file level_file
       = Ok (pool_of unicode_upper valid_root level_root)).
Proof.
  unfold build_daily_pool_json. split; [|split].
  - intros pool. split.
    + destruct (read_text Utf8 valid_file) as [valid_text|]; cbn [bind]; [|done].
      destruct (json_loads parse_json valid_text) as [valid_root|] eqn:Hvr;
        cbn [bind]; [|done].
      destruct (read_text Utf8Sig level_file) as [level_text|]; cbn [bind]; [|done].
      destruct (json_loads parse_json level_text) as [level_root|] eqn:Hlr;
        cbn [bind]; [|done].
      intros Hpool. pose proof (pool_json_run valid_root level_root) as Hrun.
      rewrite Hpool in Hrun. destruct Hrun as (Hl & Hv & Hmem).
      exists valid_text, level_text, valid_root, level_root.
      repeat (split; [done|]). exact Hmem.
    + intros (valid_text & level_text & valid_root & level_root
              & -> & Hvr & -> & Hlr & Hl & Hv & Hmem).
      cbn [bind]. rewrite Hvr. cbn [bind]. rewrite Hlr. cbn [bind].
      pose proof (pool_json_run valid_root level_root) as Hrun.
      destruct (pool_json unicode_upper valid_root level_root) as [pool'|e].
      * destruct Hrun as (_ & _ & Hmem'). f_equal. apply set_eq. intros u.
        by rewrite Hmem, Hmem'.
      * destruct Hrun as [[Hl'|Hv'] _]; congruence.
  - intros valid_text level_text valid_root level_root e -> Hvr -> Hlr.
    cbn [bind]. rewrite Hvr. cbn [bind]. rewrite Hlr. cbn [bind].
    intros Hfault. pose proof (pool_json_run valid_root level_root) as Hrun.
    rewrite Hfault in Hrun. destruct Hrun as [Hshape He]. done.
  - intros valid_text level_text valid_root level_root -> Hvr -> Hlr.
    cbn [bind]. rewrite Hvr. cbn [bind]. rewrite Hlr. cbn [bind].
    apply pool_json_typed.
Qed.

End JsonProperties.

(** A level entry without a word raises [KeyError], a number where a word
    is due raises [AttributeError], and a string where a bucket is due is
    run over code point by code point. *)
Example odd_shapes :
  pool_json no_table (valid_json sample_valid) level_without_word = Raise KeyError
  ∧ pool_json no_table valid_with_number (level_json sample_level) = Raise AttributeError
  ∧ pool_json no_table valid_with_string (JObject [])
    = Ok ({[ py "C" ]} ∪ {[ py "A" ]} ∪ {[ py "R" ]} ∪ {[ py "E" ]}).
Proof.
  split; [reflexivity|]. split; [vm_compute; reflexivity|].
  pose proof (pool_json_run no_table valid_with_string (JObject [])) as Hrun.
  destruct (pool_json _ _ _) as [pool|e] eqn:Hpool; [|by destruct Hrun as [[?|?] _]].
  destruct Hrun as (_ & _ & Hmem). f_equal. apply set_eq. intros u.
  rewrite Hmem, !elem_of_union, !elem_of_singleton. unfold from_valid_json. split.
  - intros [(members & k & ws & s & [= <-] & Hk & Hit & Hs & ->) _].
    repeat (apply elem_of_cons in Hk as [->|Hk]);
      [| | |by apply elem_of_nil in Hk]; vm_compute in Hit; injection Hit as <-.
    + repeat (apply elem_of_cons in Hs as [[= ->]|Hs]); auto.
      by apply elem_of_nil in Hs.
    + by apply elem_of_nil in Hs.
    + by apply elem_of_nil in Hs.
  - intros Hu. split.
    + exists [(py "4", JString (py "care"))], (py "4"),
        ((fun c => JString [c]) <$> py "care").
      destruct Hu as [[[->| ->]| ->]| ->];
        [exists [99%N]|exists [97%N]|exists [114%N]|exists [101%N]];
        (split; [reflexivity|]; split; [in_list|]; split; [reflexivity|];
         split; [in_list|reflexivity]).
    + intros (members & items & objs & entry & w & [= <-] & Hin & _).
      by apply elem_of_nil in Hin.
Qed.

(** Line ends as a file opened as text hands them over. *)
Example universal_newlines_sample :
  universal_newlines [97; 13; 10; 98; 13; 99; 10; 13; 13; 10; 100; 13]%N
  = [97; 10; 98; 10; 99; 10; 10; 10; 100; 10]%N.
Proof. reflexivity. Qed.
